(** * Shallow embedding of the numerical kernels of [4-rpmd.ipynb]

    Two parts of the notebook are modelled:
    - the quantum time-correlation functions of the harmonic oscillator
      ([Ei], [qij], [Cqq_std], [Cqq_kubo]), over the real numbers;
    - the velocity-Verlet trajectory loops (the [traj_ens] and
      [inv_traj_ens] cells) and [boltzweight], generic over the number type,
      so that they can be read in exact real arithmetic and run in IEEE
      binary64 arithmetic (Rocq's primitive floats, the arithmetic of
      Python's [float]). *)

From Stdlib Require Import Floats.
From Stdlib Require Import Reals Lra Lia ZArith List Bool.
Import ListNotations.
Local Set Warnings "-register-all -inexact-float -abstract-large-number".

(** ** Arithmetic used by the integrator

    Python's [+], [*], [/] and unary [-] on the values the loops handle. *)
Class Arith (A : Type) := {
  add : A -> A -> A;
  mul : A -> A -> A;
  div : A -> A -> A;
  opp : A -> A;
  two : A
}.

#[global] Instance Arith_R : Arith R :=
  { add := Rplus; mul := Rmult; div := Rdiv; opp := Ropp; two := 2%R }.

#[global] Instance Arith_float : Arith float :=
  { add := PrimFloat.add; mul := PrimFloat.mul; div := PrimFloat.div;
    opp := PrimFloat.opp; two := 2%float }.

Declare Scope py_scope.
Delimit Scope py_scope with py.
Infix "+" := add : py_scope.
Infix "*" := mul : py_scope.
Infix "/" := div : py_scope.
Notation "- x" := (opp x) : py_scope.

(** ** The trajectory cells *)
Module Verlet.
Section Integrator.
Context {A : Type} `{Arith A}.
Local Open Scope py_scope.

(** [def f(q): return -q] *)
Definition f (q : A) : A := - q.

(** The dictionary [traj_ens[j]] with its three lists. *)
Record traj := mkTraj { plist : list A; qlist : list A; flist : list A }.

(** One pass of the loop body:
    [p = p + (f(q)) * dt / 2; q = q + p * dt; p = p + (f(q)) * dt / 2]. *)
Definition step (force : A -> A) (dt : A) (pq : A * A) : A * A :=
  let '(p, q) := pq in
  let p := p + force q * dt / two in
  let q := q + p * dt in
  let p := p + force q * dt / two in
  (p, q).

(** The loop [for i in range(steps)]: update [p], [q], then
    [plist.append(p); qlist.append(q); flist.append(f(q))]. The lists start
    empty, so the initial state is not recorded. *)
Fixpoint loop (force : A -> A) (dt : A) (n : nat) (pq : A * A) (acc : traj)
  : traj :=
  match n with
  | O => acc
  | S n' =>
      let '(p, q) := step force dt pq in
      loop force dt n' (p, q)
        (mkTraj (plist acc ++ [p]) (qlist acc ++ [q]) (flist acc ++ [force q]))
  end.

(** The body of the [traj_ens] cell for one initial condition, with
    [steps] already computed. *)
Definition run (force : A -> A) (dt : A) (steps : nat) (p0 q0 : A) : traj :=
  loop force dt steps (p0, q0) (mkTraj [] [] []).

(** Python's [lst[-1]]: the last element, [IndexError] on an empty list. *)
Definition last_item (l : list A) : option A :=
  match rev l with
  | x :: _ => Some x
  | [] => None
  end.

(** The body of the [inv_traj_ens] cell: start from
    [p = -plist[-1]], [q = qlist[-1]] and run the same loop again. *)
Definition run_inverse (force : A -> A) (dt : A) (steps : nat) (tr : traj)
  : option traj :=
  match last_item (plist tr), last_item (qlist tr) with
  | Some pN, Some qN => Some (run force dt steps (- pN) qN)
  | _, _ => None
  end.

(** Reading aids for the loop: the [n]-th iterate of the body, the states
    after each of [n] passes (what the lists record), the states before each
    of [n] passes (the initial state first), and the momentum flip. *)
Fixpoint iter (force : A -> A) (dt : A) (n : nat) (pq : A * A) : A * A :=
  match n with
  | O => pq
  | S n' => iter force dt n' (step force dt pq)
  end.

Fixpoint states (force : A -> A) (dt : A) (n : nat) (pq : A * A) : list (A * A) :=
  match n with
  | O => []
  | S n' => let s := step force dt pq in s :: states force dt n' s
  end.

Fixpoint orbit (force : A -> A) (dt : A) (n : nat) (pq : A * A) : list (A * A) :=
  match n with
  | O => []
  | S n' => pq :: orbit force dt n' (step force dt pq)
  end.

Definition flip (pq : A * A) : A * A := let '(p, q) := pq in (- p, q).

End Integrator.
End Verlet.

(** The energy [p**2 / 2 + q**2 / 2] of a phase-space point, as the
    Boltzmann-weight cell computes it. *)
Definition energy {A : Type} `{Arith A} (p q : A) : A :=
  (p * p / two + q * q / two)%py.

(** [steps = int(tmax / dt)]: Python's [int] truncates towards zero, and
    [range] of a negative count is empty. *)
Definition py_int (x : R) : Z :=
  if Rle_dec 0 x then Int_part x else (- Int_part (- x))%Z.

Definition steps_of (tmax dt : R) : nat := Z.to_nat (py_int (tmax / dt)).

(** ** The correlation-function cells *)
Module Corr.
Local Open Scope R_scope.

(** [m = 1; hbar = 1; beta = 1] *)
Definition m : R := 1.
Definition hbar : R := 1.
Definition beta : R := 1.

(** Complex numbers, with the operations the cells use: sums, products with
    a real factor on either side, division by a real and [np.exp]. *)
Record C := mkC { re : R; im : R }.
Definition C0 : C := mkC 0 0.
Definition of_real (x : R) : C := mkC x 0.
Definition cadd (z w : C) : C := mkC (re z + re w) (im z + im w).
Definition cmulr (z : C) (r : R) : C := mkC (re z * r) (im z * r).
Definition rmulc (r : R) (z : C) : C := mkC (r * re z) (r * im z).
Definition cdivr (z : C) (r : R) : C := mkC (re z / r) (im z / r).
Definition cexp (z : C) : C :=
  mkC (exp (re z) * cos (im z)) (exp (re z) * sin (im z)).

(** Arrays of any shape: a scalar or an axis of sub-arrays. Arithmetic
    between an array and scalars acts elementwise ([amap]). *)
Inductive ndarray (X : Type) :=
| Scalar (x : X)
| Axis (xs : list (ndarray X)).
Arguments Scalar {X} x.
Arguments Axis {X} xs.

Fixpoint amap {X Y : Type} (g : X -> Y) (a : ndarray X) : ndarray Y :=
  match a with
  | Scalar x => Scalar (g x)
  | Axis xs => Axis (map (amap g) xs)
  end.

(** [Ei(i, omega=1, return_zero=False)] *)
Definition Ei (i : Z) (omega : R) (return_zero : bool) : R :=
  if return_zero then (IZR i + 1 / 2) * hbar * omega
  else IZR i * hbar * omega.

(** [qij(i, j, omega=1)] *)
Definition qij (i j : Z) (omega : R) : R :=
  if Z.eqb i (j - 1) then sqrt (hbar / (2 * m * omega)) * sqrt (IZR j)
  else if Z.eqb i (j + 1) then sqrt (hbar / (2 * m * omega)) * sqrt (IZR (j + 1))
  else 0.

(** [range(n)] *)
Definition range (n : Z) : list Z := map Z.of_nat (seq 0 (Z.to_nat n)).

(** [np.exp(-1j * (Ea - Eb) * t / hbar)] *)
Definition phase (Ea Eb t : R) : C := cexp (mkC 0 (- (Ea - Eb) * t / hbar)).

(** An accumulator that starts as the Python scalar [0] and becomes an
    array of the shape of [t] at its first [+=] is kept as the function
    giving its entry at each time point. *)
Definition tarray := R -> C.
Definition tzero : tarray := fun _ => C0.

(** One summand of the inner loop of [Cqq_std]:
    [np.exp(-1j * (Ei(i, omega) - Ei(j, omega)) * t / hbar) * qij(i,j) * qij(j,i)].
    The calls [qij(i,j)] and [qij(j,i)] pass no [omega], so they take the
    default [omega = 1]. *)
Definition std_term (omega : R) (i j : Z) (t : R) : C :=
  cmulr (cmulr (phase (Ei i omega false) (Ei j omega false) t) (qij i j 1)) (qij j i 1).

(** The inner loop of [Cqq_std]: [sumj = 0; for j in range(0, i + 2): sumj += ...]. *)
Definition std_sumj (omega : R) (i : Z) : tarray :=
  fold_left (fun sumj j => fun t => cadd (sumj t) (std_term omega i j t))
    (range (i + 2)) tzero.

(** The body of the outer loop of [Cqq_std]:
    [rc += sumj * np.exp(-beta * Ei(i, omega)); rz += np.exp(-beta * Ei(i, omega))]. *)
Definition std_body (omega : R) (acc : tarray * R) (i : Z) : tarray * R :=
  let '(rc, rz) := acc in
  ((fun t => cadd (rc t) (cmulr (std_sumj omega i t) (exp (- beta * Ei i omega false)))),
   rz + exp (- beta * Ei i omega false)).

(** The outer loop of [Cqq_std], from [rc = 0; rz = 0]. *)
Definition std_loop (omega : R) (i_max : Z) : tarray * R :=
  fold_left (std_body omega) (range (i_max + 1)) (tzero, 0).

(** [Cqq_std(t, omega=1, i_max=100)] *)
Definition Cqq_std (t : ndarray R) (omega : R) (i_max : Z) : ndarray C :=
  let '(rc, rz) := std_loop omega i_max in
  if Z.ltb 0 i_max then amap (fun x => cdivr (rc x) rz) t
  else amap (fun x => of_real (x * 0)) t.

(** [np.linspace(start, stop, num)]: [arange(num) * step + start] with
    [step = (stop - start) / (num - 1)]. *)
Definition linspace (start stop : R) (num : nat) : list R :=
  match num with
  | O => []
  | S O => [start]
  | _ => map (fun k => INR k * ((stop - start) / INR (num - 1)) + start)
             (seq 0 num)
  end.

(** [np.sum] *)
Definition sum (l : list R) : R := fold_left Rplus l 0.

(** [lterm = np.sum(np.exp(-lgrid * (Ei(j) - Ei(i)))) * (lgrid[1] - lgrid[0]) / beta];
    indexing a grid of fewer than two points raises [IndexError] ([None]). *)
Definition lterm (lgrid : list R) (i j : Z) : option R :=
  match nth_error lgrid 1, nth_error lgrid 0 with
  | Some l1, Some l0 =>
      Some (sum (map (fun l => exp (- l * (Ei j 1 false - Ei i 1 false))) lgrid)
              * (l1 - l0) / beta)
  | _, _ => None
  end.

(** A loop whose body may raise: the first [None] stops it. *)
Definition ofold {X Y : Type} (g : X -> Y -> option X) (l : list Y) (x : X)
  : option X :=
  fold_left (fun acc y => match acc with Some a => g a y | None => None end)
    l (Some x).

(** One summand of the inner loop of [Cqq_kubo]:
    [lterm * np.exp(-(beta) * Ei(i)) * np.exp(-1j * (Ei(i) - Ei(j)) * t / hbar)
     * qij(i,j) * qij(j,i)].
    [Ei] and [qij] are called without [omega]: they take [omega = 1]. *)
Definition kubo_term (lt : R) (i j : Z) (t : R) : C :=
  cmulr (cmulr (rmulc (lt * exp (- beta * Ei i 1 false))
                  (phase (Ei i 1 false) (Ei j 1 false) t))
           (qij i j 1)) (qij j i 1).

(** The inner loop of [Cqq_kubo]: for each [j], compute [lterm] (which may
    raise) and [rcqq += ...]. *)
Definition kubo_inner (lgrid : list R) (i : Z) (rcqq : tarray) : option tarray :=
  ofold
    (fun rc j =>
       match lterm lgrid i j with
       | Some lt => Some (fun t => cadd (rc t) (kubo_term lt i j t))
       | None => None
       end)
    (range (i + 2)) rcqq.

(** The body of the outer loop of [Cqq_kubo]: the inner loop, then
    [rz += np.exp(-beta * Ei(i))]. *)
Definition kubo_body (lgrid : list R) (acc : tarray * R) (i : Z) : option (tarray * R) :=
  let '(rcqq, rz) := acc in
  match kubo_inner lgrid i rcqq with
  | Some rcqq' => Some (rcqq', rz + exp (- beta * Ei i 1 false))
  | None => None
  end.

(** The outer loop of [Cqq_kubo], from [rcqq = 0; rz = 0]. *)
Definition kubo_loop (lgrid : list R) (i_max : Z) : option (tarray * R) :=
  ofold (kubo_body lgrid) (range (i_max + 1)) (tzero, 0).

(** [Cqq_kubo(t, omega=1, i_max=100, lgrid=1000)]; [None] is the
    [IndexError] raised inside the loop. *)
Definition Cqq_kubo (t : ndarray R) (omega : R) (i_max : Z) (lgrid : nat)
  : option (ndarray C) :=
  let grid := linspace 0 beta lgrid in
  match kubo_loop grid i_max with
  | Some (rcqq, rz) =>
      Some (if Z.ltb 0 i_max then amap (fun x => cdivr (rcqq x) rz) t
            else amap (fun x => of_real (x * 0)) t)
  | None => None
  end.

(** *** The correlation functions as the spec writes them

    Second definitions, from the spec's words, to be compared with the
    ones above: energies [E(i) = i hbar omega], matrix elements
    [sqrt(hbar/(2 m omega)) sqrt(max(i,j))] for [|i - j| = 1] and [0]
    otherwise, phase [exp(-i (E_i - E_j) t / hbar)], sums over
    [i = 0 .. i_max] and [j = 0 .. i+1]. *)
Definition rsum {X : Type} (g : X -> R) (l : list X) : R :=
  fold_right (fun x acc => g x + acc) 0 l.
Definition csum (l : list C) : C := fold_right cadd C0 l.

Definition E_spec (omega : R) (i : Z) : R := IZR i * hbar * omega.

Definition q_spec (omega : R) (i j : Z) : R :=
  if Z.eqb (Z.abs (i - j)) 1 then sqrt (hbar / (2 * m * omega)) * sqrt (IZR (Z.max i j))
  else 0.

Definition rotation (theta : R) : C := mkC (cos theta) (- sin theta).

Definition partition_spec (omega : R) (i_max : Z) : R :=
  rsum (fun i => exp (- beta * E_spec omega i)) (range (i_max + 1)).

Definition Cqq_std_spec (t omega : R) (i_max : Z) : C :=
  cdivr
    (csum (map (fun i =>
       csum (map (fun j =>
         rmulc (exp (- beta * E_spec omega i) * (q_spec omega i j * q_spec omega j i))
           (rotation ((E_spec omega i - E_spec omega j) * t / hbar)))
         (range (i + 2))))
       (range (i_max + 1))))
    (partition_spec omega i_max).

(** The Kubo weight of the spec: [(dl / beta) sum_l exp(-l (E_j - E_i))] over
    the [L] grid points [l_k = k dl], [dl = beta / (L - 1)]. *)
Definition lterm_spec (omega : R) (L : nat) (i j : Z) : R :=
  let dl := beta / INR (L - 1) in
  dl / beta * rsum (fun k => exp (- (INR k * dl) * (E_spec omega j - E_spec omega i)))
                (seq 0 L).

Definition Cqq_kubo_spec (t omega : R) (i_max : Z) (L : nat) : C :=
  cdivr
    (csum (map (fun i =>
       csum (map (fun j =>
         rmulc (lterm_spec omega L i j * exp (- beta * E_spec omega i)
                * (q_spec omega i j * q_spec omega j i))
           (rotation ((E_spec omega i - E_spec omega j) * t / hbar)))
         (range (i + 2))))
       (range (i_max + 1))))
    (partition_spec omega i_max).

End Corr.

(** ** The Fourier-transform cells

    [fdamp], [wave] and the cell that transforms the damped signal, on the
    1-D arrays the cells pass them. *)
Module Signal.
Import Corr.
Local Open Scope R_scope.

(** [def fdamp(t): return np.exp(-(t / 40 / np.pi)**2)], entry by entry. *)
Definition fdamp (t : list R) : list R :=
  map (fun x => exp (- (x / 40 / PI) ^ 2)) t.

(** [np.outer(a, b)]: the rows [a_i * b]. *)
Definition outer (a b : list R) : list (list R) :=
  map (fun x => map (fun y => x * y) b) a.

(** [np.sum(rows, axis=0)] of a 2-D array with [ncols] columns: the
    column sums, zeros when there is no row. *)
Definition sum_axis0 (ncols : nat) (rows : list (list R)) : list R :=
  fold_left (fun acc row => map (fun '(x, y) => x + y) (combine acc row))
    rows (repeat 0 ncols).

(** [def wave(t, ws): return np.sum(np.cos(np.outer(ws,t)), axis=0)] *)
Definition wave (t ws : list R) : list R :=
  sum_axis0 (length t) (map (map cos) (outer ws t)).

(** [signal = wave(t, ws) * fdamp(t)] *)
Definition signal (t ws : list R) : list R :=
  map (fun '(a, b) => a * b) (combine (wave t ws) (fdamp t)).

(** [np.sum] of a complex array. *)
Definition csum_np (l : list C) : C := fold_left cadd l C0.

(** The transform cell:
    [dt = t[1] - t[0]; ft = np.zeros(w.shape);
     for i in range(len(w)):
         ft[i] = np.real(np.sum(dt * np.exp(-1j * w[i] * t) * signal))];
    indexing [t] with fewer than two points raises [IndexError] ([None]). *)
Definition ft_cell (t ws w : list R) : option (list R) :=
  match nth_error t 1, nth_error t 0 with
  | Some t1, Some t0 =>
      let dt := t1 - t0 in
      let s := signal t ws in
      Some (map (fun wi =>
               re (csum_np (map (fun '(x, sx) => cmulr (rmulc dt (cexp (mkC 0 (- wi * x)))) sx)
                                (combine t s))))
              w)
  | _, _ => None
  end.

End Signal.

(** ** [boltzweight]

    The module-level arrays [ps] and [qs] that the function body reads. *)
Local Open Scope R_scope.

Record globals := mkGlobals { ps : list R; qs : list R }.

(** Elementwise combination of two 1-D arrays with NumPy broadcasting:
    equal lengths, or one of length one; otherwise [ValueError] ([None]). *)
Definition broadcast2 (g : R -> R -> R) (xs ys : list R) : option (list R) :=
  if Nat.eqb (length xs) (length ys) then
    Some (map (fun '(x, y) => g x y) (combine xs ys))
  else match xs, ys with
       | [x], _ => Some (map (g x) ys)
       | _, [y] => Some (map (fun x => g x y) xs)
       | _, _ => None
       end.

(** [def boltzweight(p, q, beta): return np.exp(-beta * (ps**2 / 2 + qs**2 / 2))]:
    the parameters [p] and [q] are accepted whatever they are. *)
Definition boltzweight (g : globals) {P Q : Type} (p : P) (q : Q) (beta : R)
  : option (list R) :=
  option_map (map (fun e => exp (- beta * e)))
    (broadcast2 (fun a b => a ^ 2 / 2 + b ^ 2 / 2) (ps g) (qs g)).

(** ** The ensemble cells

    The dictionaries [traj_ens] and [inv_traj_ens], keyed by the trajectory
    index, as association lists in insertion order. *)
Module Ensemble.
Import Verlet.
Local Open Scope R_scope.

Inductive py_error := KeyError (key : nat) | IndexError | TypeError.

(** The value bound to the global name [f] when a cell runs: the force
    function of the notebook, or the array [np.asarray(flist)] that the
    exercise cell on the arc length of the phase-space vector assigns
    to [f]. Calling an array
    raises [TypeError]. *)
Inductive pyforce := PyFun (g : R -> R) | PyArray (a : list R).

(** [d[k]]; [None] is the [KeyError] of a missing key. *)
Definition dict_get {V : Type} (d : list (nat * V)) (k : nat) : option V :=
  match find (fun kv => Nat.eqb (fst kv) k) d with
  | Some (_, v) => Some v
  | None => None
  end.

(** [d[k] = v]: an existing key keeps its place, a new key goes last. *)
Definition dict_set {V : Type} (d : list (nat * V)) (k : nat) (v : V) : list (nat * V) :=
  if existsb (fun kv => Nat.eqb (fst kv) k) d
  then map (fun kv => if Nat.eqb (fst kv) k then (k, v) else kv) d
  else d ++ [(k, v)].

(** The [traj_ens] cell:
    [for j, p0, q0 in zip(range(n_trajs), p0s, q0s):
        dt = 0.01; tmax = 100; steps = int(tmax / dt); ...
        traj_ens[j] = {'plist': ..., 'qlist': ..., 'flist': ...}]. *)
Definition traj_ens_cell (n_trajs : nat) (p0s q0s : list R) : list (nat * @traj R) :=
  fold_left (fun d '(j, (p0, q0)) =>
      let dt := 1 / 100 in
      let tmax := 100 in
      let steps := steps_of tmax dt in
      dict_set d j (run f dt steps p0 q0))
    (combine (seq 0 n_trajs) (combine p0s q0s)) [].

(** One pass of the [inv_traj_ens] loop body for a stored trajectory [tr]:
    [p = -tr['plist'][-1]; q = tr['qlist'][-1]] ([IndexError] on an empty
    list), then [steps] passes of the loop, each calling [f]. *)
Definition inv_run (fg : pyforce) (dt : R) (steps : nat) (tr : @traj R)
  : py_error + @traj R :=
  match last_item (plist tr), last_item (qlist tr) with
  | Some pN, Some qN =>
      match fg, steps with
      | PyFun g, _ => inr (run g dt steps (- pN) qN)
      | PyArray _, O => inr (mkTraj [] [] [])
      | PyArray _, S _ => inl TypeError
      end
  | _, _ => inl IndexError
  end.

(** The [inv_traj_ens] cell, with the globals [f], [dt] and [steps] left by
    the cells run before it:
    [for j in range(n_trajs):
        p = -traj_ens[j]['plist'][-1]; q = traj_ens[j]['qlist'][-1]; ...
        inv_traj_ens[j] = {...}];
    the first [KeyError], [IndexError] or [TypeError] stops it. *)
Definition inv_traj_ens_cell (fg : pyforce) (n_trajs : nat) (dt : R) (steps : nat)
  (traj_ens : list (nat * @traj R)) : py_error + list (nat * @traj R) :=
  fold_left (fun acc j =>
      match acc with
      | inl e => inl e
      | inr d =>
          match dict_get traj_ens j with
          | None => inl (KeyError j)
          | Some tr =>
              match inv_run fg dt steps tr with
              | inr inv => inr (dict_set d j inv)
              | inl e => inl e
              end
          end
      end)
    (seq 0 n_trajs) (inr []).

End Ensemble.

(** ** Runs in double precision

    The quantities the notebook plots or inspects, computed with the loops
    above in IEEE binary64 arithmetic. *)
Module FloatRuns.
Import Verlet.
Local Open Scope float_scope.

(** Every pair of entries within [tol] of each other, the lists having the
    same length. *)
Definition within (tol : float) (xs ys : list float) : bool :=
  Nat.eqb (length xs) (length ys) &&
  forallb (fun '(x, y) => PrimFloat.leb (PrimFloat.abs (x - y)) tol) (combine xs ys).

(** The comparison of the last trajectory cell: the forward positions
    against the reversed run's positions read backwards ([[::-1]]). *)
Definition reversal_matches (tol p0 q0 dt : float) (steps : nat) : bool :=
  let fwd := run f dt steps p0 q0 in
  match run_inverse f dt steps fwd with
  | Some inv => within tol (qlist fwd) (rev (qlist inv))
  | None => false
  end.

(** The same comparison against the forward positions shifted by one step:
    [q0] followed by all recorded positions but the last. *)
Definition shifted_reversal_matches (tol p0 q0 dt : float) (steps : nat) : bool :=
  let fwd := run f dt steps p0 q0 in
  match run_inverse f dt steps fwd with
  | Some inv => within tol (q0 :: removelast (qlist fwd)) (rev (qlist inv))
  | None => false
  end.

(** The energy of the last recorded state within [tol] of the initial one. *)
Definition final_energy_within (tol p0 q0 dt : float) (steps : nat) : bool :=
  let tr := run f dt steps p0 q0 in
  match last_item (plist tr), last_item (qlist tr) with
  | Some p, Some q =>
      PrimFloat.ltb (PrimFloat.abs (energy p q - energy p0 q0)) tol
  | _, _ => false
  end.

End FloatRuns.

(** * Properties *)

(** ** The trajectory loop, for any number type *)
Module VerletFacts.
Import Verlet.
Section Generic.
Context {A : Type} `{Arith A} (force : A -> A) (dt : A).

Lemma loop_states (n : nat) : forall pq acc,
  loop force dt n pq acc =
  mkTraj (plist acc ++ map fst (states force dt n pq))
         (qlist acc ++ map snd (states force dt n pq))
         (flist acc ++ map (fun s => force (snd s)) (states force dt n pq)).
Proof.
  induction n as [|n IH]; intros pq acc; simpl.
  - rewrite !app_nil_r. destruct acc; reflexivity.
  - destruct (step force dt pq) as [p q]. rewrite IH. simpl.
    rewrite <- !app_assoc. reflexivity.
Qed.

Lemma run_states (n : nat) (p0 q0 : A) :
  run force dt n p0 q0 =
  mkTraj (map fst (states force dt n (p0, q0)))
         (map snd (states force dt n (p0, q0)))
         (map (fun s => force (snd s)) (states force dt n (p0, q0))).
Proof. unfold run. rewrite loop_states. reflexivity. Qed.

Lemma states_length (n : nat) : forall pq, length (states force dt n pq) = n.
Proof. induction n; intros; simpl; [reflexivity | now rewrite IHn]. Qed.

Lemma iter_S (n : nat) : forall pq,
  iter force dt (S n) pq = step force dt (iter force dt n pq).
Proof. induction n; intros pq; [reflexivity | apply IHn]. Qed.

Lemma states_orbit (n : nat) : forall pq,
  states force dt n pq = orbit force dt n (step force dt pq).
Proof. induction n; intros pq; simpl; [reflexivity | now rewrite IHn]. Qed.

Lemma orbit_snoc (n : nat) : forall pq,
  orbit force dt (S n) pq = orbit force dt n pq ++ [iter force dt n pq].
Proof.
  induction n; intros pq; [reflexivity|].
  change (orbit force dt (S (S n)) pq)
    with (pq :: orbit force dt (S n) (step force dt pq)).
  rewrite IHn. reflexivity.
Qed.

Lemma states_snoc (n : nat) (pq : A * A) :
  states force dt (S n) pq = states force dt n pq ++ [iter force dt (S n) pq].
Proof. rewrite !states_orbit, orbit_snoc. reflexivity. Qed.

Lemma nth_states (n : nat) : forall pq k, (k < n)%nat ->
  nth_error (states force dt n pq) k = Some (iter force dt (S k) pq).
Proof.
  induction n as [|n IH]; intros pq k Hk; [lia|].
  destruct k as [|k]; simpl; [reflexivity|].
  apply IH. lia.
Qed.

Lemma last_item_snoc (l : list A) (x : A) : last_item (l ++ [x]) = Some x.
Proof. unfold last_item. rewrite rev_app_distr. reflexivity. Qed.

Lemma last_item_map_snoc {B : Type} (g : B -> A) (l : list B) (x : B) :
  last_item (map g (l ++ [x])) = Some (g x).
Proof. rewrite map_app. apply last_item_snoc. Qed.

End Generic.

(** ** Exact arithmetic: one pass of the loop is undone by flipping the
    momentum, whatever the force. *)
Section Exact.
Local Open Scope R_scope.
Variable force : R -> R.
Variable dt : R.

Lemma step_flip (pq : R * R) :
  step force dt (flip (step force dt pq)) = flip pq.
Proof.
  destruct pq as [p q]. cbn -[Rdiv].
  set (p1 := p + force q * dt / 2).
  set (q1 := q + p1 * dt).
  replace (q1 + (- (p1 + force q1 * dt / 2) + force q1 * dt / 2) * dt) with q
    by (unfold q1; ring).
  f_equal. unfold p1. ring.
Qed.

Lemma iter_flip (n : nat) : forall pq,
  iter force dt n (flip (iter force dt n pq)) = flip pq.
Proof.
  induction n as [|n IH]; intros pq; [reflexivity|].
  change (iter force dt (S n) (flip (iter force dt (S n) pq)))
    with (iter force dt n (step force dt (flip (iter force dt (S n) pq)))).
  rewrite iter_S, step_flip. apply IH.
Qed.

Lemma states_flip (n : nat) : forall pq,
  states force dt n (flip (iter force dt n pq)) = rev (map flip (orbit force dt n pq)).
Proof.
  induction n as [|n IH]; intros pq; [reflexivity|].
  rewrite states_snoc, iter_flip.
  change (iter force dt (S n) pq) with (iter force dt n (step force dt pq)).
  rewrite IH. reflexivity.
Qed.

(** The reversed run, started from the flipped last state of a forward run
    of [S n] steps, records the forward states before each pass, flipped and
    in reverse order; its positions read backwards are [q0] followed by the
    forward positions without the last one. *)
Lemma inverse_positions (n : nat) (p0 q0 : R) :
  exists inv,
    run_inverse force dt (S n) (run force dt (S n) p0 q0) = Some inv /\
    states force dt (S n) (flip (iter force dt (S n) (p0, q0)))
      = rev (map flip (orbit force dt (S n) (p0, q0))) /\
    rev (qlist inv) = q0 :: removelast (qlist (run force dt (S n) p0 q0)).
Proof.
  unfold run_inverse. rewrite run_states. cbn [plist qlist].
  rewrite states_snoc, !last_item_map_snoc.
  destruct (iter force dt (S n) (p0, q0)) as [pN qN] eqn:HN.
  eexists. split; [reflexivity|].
  pose proof (states_flip (S n) (p0, q0)) as Hf. rewrite HN in Hf.
  split; [exact Hf|].
  rewrite run_states. cbn [qlist flip fst snd] in *. rewrite Hf.
  rewrite map_rev, rev_involutive, map_map, map_app. cbn [map].
  rewrite removelast_last.
  change (orbit force dt (S n) (p0, q0)) with ((p0, q0) :: orbit force dt n (step force dt (p0, q0))).
  rewrite states_orbit. simpl. f_equal.
  apply map_ext. intros [p q]. reflexivity.
Qed.

End Exact.
End VerletFacts.

(** ** Runs in double precision, through [states] *)
Module FloatFacts.
Import Verlet.

Lemma last_item_states {A : Type} `{Arith A} (force : A -> A) (dt : A)
  (g : A * A -> A) (n : nat) (pq : A * A) :
  last_item (map g (states force dt (S n) pq)) = Some (g (iter force dt (S n) pq)).
Proof. rewrite VerletFacts.states_snoc. apply VerletFacts.last_item_map_snoc. Qed.

Lemma reversal_matches_states (tol p0 q0 dt : float) (n : nat) (Hn : Nat.ltb 0 n = true) :
  FloatRuns.reversal_matches tol p0 q0 dt n =
  let '(pN, qN) := iter f dt n (p0, q0) in
  FloatRuns.within tol (map snd (states f dt n (p0, q0)))
    (rev_append (map snd (states f dt n ((- pN)%float, qN))) []).
Proof.
  destruct n as [|n]; [discriminate|].
  unfold FloatRuns.reversal_matches, run_inverse.
  rewrite VerletFacts.run_states. cbn [plist qlist].
  rewrite !last_item_states.
  destruct (iter f dt (S n) (p0, q0)) as [pN qN]. cbn [fst snd].
  rewrite VerletFacts.run_states. cbn [qlist]. rewrite rev_alt. reflexivity.
Qed.

Lemma shifted_reversal_matches_states (tol p0 q0 dt : float) (n : nat) (Hn : Nat.ltb 0 n = true) :
  FloatRuns.shifted_reversal_matches tol p0 q0 dt n =
  let '(pN, qN) := iter f dt n (p0, q0) in
  FloatRuns.within tol (q0 :: removelast (map snd (states f dt n (p0, q0))))
    (rev_append (map snd (states f dt n ((- pN)%float, qN))) []).
Proof.
  destruct n as [|n]; [discriminate|].
  unfold FloatRuns.shifted_reversal_matches, run_inverse.
  rewrite VerletFacts.run_states. cbn [plist qlist].
  rewrite !last_item_states.
  destruct (iter f dt (S n) (p0, q0)) as [pN qN]. cbn [fst snd].
  rewrite VerletFacts.run_states. cbn [qlist]. rewrite rev_alt. reflexivity.
Qed.

Lemma final_energy_within_iter (tol p0 q0 dt : float) (n : nat) (Hn : Nat.ltb 0 n = true) :
  FloatRuns.final_energy_within tol p0 q0 dt n =
  let '(p, q) := iter f dt n (p0, q0) in
  PrimFloat.ltb (PrimFloat.abs (energy p q - energy p0 q0)%float) tol.
Proof.
  destruct n as [|n]; [discriminate|].
  unfold FloatRuns.final_energy_within.
  rewrite VerletFacts.run_states. cbn [plist qlist].
  rewrite !last_item_states.
  destruct (iter f dt (S n) (p0, q0)) as [p q]. reflexivity.
Qed.

End FloatFacts.

(** ** The harmonic force in exact arithmetic *)
Module Harmonic.
Import Verlet VerletFacts.
Local Open Scope R_scope.

(** The quadratic form that one pass of the loop keeps exactly for
    [f(q) = -q]: [p^2 + (1 - dt^2/4) q^2]. *)
Lemma step_keeps_form (dt p q : R) :
  let '(p', q') := step f dt (p, q) in
  p' * p' + (1 - dt * dt / 4) * (q' * q') = p * p + (1 - dt * dt / 4) * (q * q).
Proof. cbn -[Rdiv]. unfold f. cbn. field. Qed.

Lemma iter_keeps_form (dt : R) (n : nat) : forall p q,
  let '(p', q') := iter f dt n (p, q) in
  p' * p' + (1 - dt * dt / 4) * (q' * q') = p * p + (1 - dt * dt / 4) * (q * q).
Proof.
  induction n as [|n IH]; intros p q; [reflexivity|].
  cbn [iter]. destruct (step f dt (p, q)) as [p1 q1] eqn:E1.
  pose proof (step_keeps_form dt p q) as H1. rewrite E1 in H1.
  specialize (IH p1 q1). destruct (iter f dt n (p1, q1)) as [p' q'].
  lra.
Qed.

Lemma energy_R (p q : R) : energy p q = p * p / 2 + q * q / 2.
Proof. reflexivity. Qed.

(** Any state reached from [(p0, q0)] has energy within
    [dt^2/8 (p0^2 + q0^2) / (1 - dt^2/4)] of the initial one. *)
Lemma iter_energy_bound (dt p0 q0 : R) (n : nat) (Hdt : 0 < dt < 2) :
  let '(p, q) := iter f dt n (p0, q0) in
  Rabs (energy p q - energy p0 q0) <= dt ^ 2 / 8 * (p0 ^ 2 + q0 ^ 2) / (1 - dt ^ 2 / 4).
Proof.
  pose proof (iter_keeps_form dt n p0 q0) as Hf.
  destruct (iter f dt n (p0, q0)) as [p q]. rewrite !energy_R.
  set (c := 1 - dt * dt / 4) in Hf.
  assert (Hc : 0 < c) by (unfold c; nra).
  assert (Hc1 : c <= 1) by (unfold c; nra).
  set (K := (p0 * p0 + q0 * q0) / c).
  assert (HK : c * K = p0 * p0 + q0 * q0) by (unfold K; field; lra).
  assert (Hq : q * q <= K) by nra.
  assert (Hq0 : q0 * q0 <= K) by nra.
  assert (Hdiff : p * p / 2 + q * q / 2 - (p0 * p0 / 2 + q0 * q0 / 2)
                  = dt * dt / 8 * (q * q - q0 * q0)).
  { replace (p * p) with (p0 * p0 + c * (q0 * q0) - c * (q * q)) by lra.
    unfold c. field. }
  replace (dt ^ 2 / 8 * (p0 ^ 2 + q0 ^ 2) / (1 - dt ^ 2 / 4)) with (dt * dt / 8 * K)
    by (unfold K, c; field; nra).
  rewrite Hdiff. apply Rabs_le. split; nra.
Qed.

End Harmonic.

(** ** The step count *)
Module StepCount.
Local Open Scope R_scope.

Lemma Int_part_IZR (z : Z) : Int_part (IZR z) = z.
Proof.
  unfold Int_part. rewrite <- (tech_up (IZR z) (z + 1)); [lia| |];
  rewrite plus_IZR; lra.
Qed.

Lemma Int_part_nonneg (x : R) : 0 <= x -> (0 <= Int_part x)%Z.
Proof.
  intros Hx. unfold Int_part. destruct (archimed x) as [Hup _].
  assert (0 < up x)%Z by (apply lt_IZR; lra). lia.
Qed.

(** For a non-negative ratio the loop count is the integer [int(tmax/dt)]. *)
Lemma steps_of_int (tmax dt : R) :
  0 <= tmax / dt -> Z.of_nat (steps_of tmax dt) = py_int (tmax / dt).
Proof.
  intros H. unfold steps_of, py_int.
  destruct (Rle_dec 0 (tmax / dt)) as [_|n]; [|lra].
  apply Z2Nat.id, Int_part_nonneg, H.
Qed.

Lemma steps_of_notebook : steps_of 100 (1 / 100) = 10000%nat.
Proof.
  unfold steps_of, py_int.
  replace (100 / (1 / 100)) with (IZR 10000) by field.
  destruct (Rle_dec 0 (IZR 10000)) as [_|n]; [|exfalso; apply n; apply IZR_le; lia].
  rewrite Int_part_IZR. reflexivity.
Qed.

End StepCount.


(** ** The correlation functions *)
Module CorrFacts.
Import Corr.
Local Open Scope R_scope.

Lemma C_ext (z w : C) : re z = re w -> im z = im w -> z = w.
Proof. destruct z, w; cbn; intros -> ->; reflexivity. Qed.

Lemma amap_ext {X Y : Type} (g h : X -> Y) (Hgh : forall x, g x = h x) :
  forall a, amap g a = amap h a.
Proof.
  fix IH 1. intros [x | xs]; cbn.
  - now rewrite Hgh.
  - f_equal. revert xs. fix IHl 1. intros [|a xs]; cbn; [reflexivity|].
    rewrite (IH a), (IHl xs). reflexivity.
Qed.

Lemma amap_amap {X Y Z : Type} (g : X -> Y) (h : Y -> Z) :
  forall a, amap h (amap g a) = amap (fun x => h (g x)) a.
Proof.
  fix IH 1. intros [x | xs]; cbn; [reflexivity|].
  f_equal. revert xs. fix IHl 1. intros [|a xs]; cbn; [reflexivity|].
  rewrite (IH a), (IHl xs). reflexivity.
Qed.

(** *** Sums *)
Lemma rsum_nil {X : Type} (g : X -> R) : rsum g [] = 0.
Proof. reflexivity. Qed.

Lemma rsum_cons {X : Type} (g : X -> R) (x : X) (l : list X) :
  rsum g (x :: l) = g x + rsum g l.
Proof. reflexivity. Qed.

Lemma csum_cons (z : C) (l : list C) : csum (z :: l) = cadd z (csum l).
Proof. reflexivity. Qed.

Lemma re_csum (l : list C) : re (csum l) = rsum re l.
Proof.
  induction l as [|z l IH]; [reflexivity|].
  rewrite csum_cons, rsum_cons. cbn [re cadd]. now rewrite IH.
Qed.

Lemma im_csum (l : list C) : im (csum l) = rsum im l.
Proof.
  induction l as [|z l IH]; [reflexivity|].
  rewrite csum_cons, rsum_cons. cbn [im cadd]. now rewrite IH.
Qed.

Lemma rsum_map {X Y : Type} (g : Y -> R) (h : X -> Y) (l : list X) :
  rsum g (map h l) = rsum (fun x => g (h x)) l.
Proof.
  induction l as [|x l IH]; [reflexivity|].
  cbn [map]. rewrite !rsum_cons, IH. reflexivity.
Qed.

Lemma rsum_ext {X : Type} (g h : X -> R) (l : list X) :
  (forall x, In x l -> g x = h x) -> rsum g l = rsum h l.
Proof.
  induction l as [|x l IH]; intros H; [reflexivity|].
  rewrite !rsum_cons, (H x (or_introl eq_refl)), IH; [reflexivity|].
  intros y Hy. apply H. right. exact Hy.
Qed.

Lemma rsum_scale {X : Type} (g : X -> R) (c : R) (l : list X) :
  rsum g l * c = rsum (fun x => g x * c) l.
Proof.
  induction l as [|x l IH]; [rewrite !rsum_nil; ring|].
  rewrite !rsum_cons, <- IH. ring.
Qed.

Lemma rsum_zero {X : Type} (l : list X) : rsum (fun _ => 0) l = 0.
Proof.
  induction l as [|x l IH]; [reflexivity|]. rewrite rsum_cons, IH. ring.
Qed.

Lemma rsum_nonneg {X : Type} (g : X -> R) (l : list X) :
  (forall x, In x l -> 0 <= g x) -> 0 <= rsum g l.
Proof.
  induction l as [|x l IH]; intros H; [rewrite rsum_nil; lra|].
  rewrite rsum_cons.
  pose proof (H x (or_introl eq_refl)).
  assert (0 <= rsum g l) by (apply IH; intros y Hy; apply H; now right).
  lra.
Qed.

Lemma fold_left_Rplus (l : list R) (a : R) :
  fold_left Rplus l a = a + rsum (fun x => x) l.
Proof.
  revert a. induction l as [|x l IH]; intros a.
  - rewrite rsum_nil. cbn [fold_left]. ring.
  - cbn [fold_left]. rewrite IH, rsum_cons. ring.
Qed.

Lemma range_succ (n : Z) : (0 <= n)%Z -> range (n + 1) = 0%Z :: map Z.succ (range n).
Proof.
  intros Hn. unfold range. rewrite Z2Nat.inj_add by lia.
  rewrite Nat.add_1_r. cbn [seq map]. f_equal.
  rewrite <- seq_shift, !map_map. apply map_ext. intros k. lia.
Qed.

Lemma in_range (n i : Z) : In i (range n) -> (0 <= i < n)%Z.
Proof.
  unfold range. rewrite in_map_iff. intros (k & <- & Hk).
  apply in_seq in Hk. lia.
Qed.

(** The accumulation loops, read as sums. *)
Lemma fold_tarray {X : Type} (g : X -> R -> C) (l : list X) :
  forall (acc : tarray) t,
  fold_left (fun a x => fun t => cadd (a t) (g x t)) l acc t
  = cadd (acc t) (csum (map (fun x => g x t) l)).
Proof.
  induction l as [|x l IH]; intros acc t; cbn [fold_left map].
  - apply C_ext; cbn [csum fold_right cadd re im C0]; ring.
  - rewrite IH, csum_cons. apply C_ext; cbn [cadd re im]; ring.
Qed.

Lemma ofold_some {X Y : Type} (g : X -> Y -> option X) (h : X -> Y -> X)
  (Hgh : forall a y, g a y = Some (h a y)) :
  forall l x, ofold g l x = Some (fold_left h l x).
Proof.
  unfold ofold. induction l as [|y l IH]; intros x; cbn; [reflexivity|].
  rewrite Hgh. apply IH.
Qed.

Lemma ofold_none {X Y : Type} (g : X -> Y -> option X) (l : list Y) :
  fold_left (fun acc y => match acc with Some a => g a y | None => None end) l None
  = None.
Proof. induction l; cbn; [reflexivity|]. exact IHl. Qed.

(** *** The matrix elements *)
Lemma qij_spec (i j : Z) (omega : R) : qij i j omega = q_spec omega i j.
Proof.
  unfold qij, q_spec.
  destruct (Z.eqb_spec i (j - 1)) as [H1|H1];
  [|destruct (Z.eqb_spec i (j + 1)) as [H2|H2]];
  destruct (Z.eqb_spec (Z.abs (i - j)) 1) as [H3|H3]; try lia.
  - do 2 f_equal. f_equal. lia.
  - do 2 f_equal. f_equal. lia.
  - reflexivity.
Qed.

Lemma q_spec_sym (omega : R) (i j : Z) : q_spec omega i j = q_spec omega j i.
Proof.
  unfold q_spec. rewrite Z.max_comm.
  replace (Z.abs (j - i)) with (Z.abs (i - j)) by lia. reflexivity.
Qed.

Lemma qij_sym (i j : Z) (omega : R) : qij i j omega = qij j i omega.
Proof. rewrite !qij_spec. apply q_spec_sym. Qed.

Lemma q_spec_prod (omega : R) (i j : Z) (Hw : 0 < omega) :
  q_spec omega i j * q_spec omega j i = / omega * (q_spec 1 i j * q_spec 1 j i).
Proof.
  rewrite (q_spec_sym omega j i), (q_spec_sym 1 j i). unfold q_spec.
  destruct (Z.eqb (Z.abs (i - j)) 1); [|ring].
  set (s := sqrt (IZR (Z.max i j))).
  assert (Ha : 0 <= hbar / (2 * m * omega)) by (unfold hbar, m; apply Rlt_le, Rdiv_lt_0_compat; lra).
  assert (H1 : 0 <= hbar / (2 * m * 1)) by (unfold hbar, m; lra).
  replace (sqrt (hbar / (2 * m * omega)) * s * (sqrt (hbar / (2 * m * omega)) * s))
    with (sqrt (hbar / (2 * m * omega)) * sqrt (hbar / (2 * m * omega)) * (s * s)) by ring.
  replace (sqrt (hbar / (2 * m * 1)) * s * (sqrt (hbar / (2 * m * 1)) * s))
    with (sqrt (hbar / (2 * m * 1)) * sqrt (hbar / (2 * m * 1)) * (s * s)) by ring.
  rewrite !sqrt_sqrt by assumption. unfold hbar, m. field. lra.
Qed.

Lemma phase_rotation (Ea Eb t : R) :
  phase Ea Eb t = rotation ((Ea - Eb) * t / hbar).
Proof.
  unfold phase, rotation, cexp. apply C_ext; cbn [re im]; rewrite exp_0;
  replace (- (Ea - Eb) * t / hbar) with (- ((Ea - Eb) * t / hbar)) by (unfold Rdiv; ring).
  - rewrite cos_neg. ring.
  - rewrite sin_neg. ring.
Qed.

Lemma Ei_spec (i : Z) (omega : R) : Ei i omega false = E_spec omega i.
Proof. reflexivity. Qed.

(** *** The loops as sums *)
Lemma pair_fold {X : Type} (F : tarray * R -> X -> tarray * R)
  (G : X -> R -> C) (W : X -> R)
  (HF : forall rc rz x,
      (forall t, fst (F (rc, rz) x) t = cadd (rc t) (G x t)) /\
      snd (F (rc, rz) x) = rz + W x) :
  forall l rc rz,
    (forall t, fst (fold_left F l (rc, rz)) t = cadd (rc t) (csum (map (fun x => G x t) l))) /\
    snd (fold_left F l (rc, rz)) = rz + rsum W l.
Proof.
  induction l as [|x l IH]; intros rc rz; cbn [fold_left map].
  - split; [intros t; apply C_ext; cbn [csum fold_right cadd re im C0 fst snd]; ring
            | cbn [snd]; rewrite rsum_nil; ring].
  - destruct (HF rc rz x) as [Hf Hs].
    destruct (F (rc, rz) x) as [rc' rz'] eqn:E. cbn [fst snd] in Hf, Hs.
    destruct (IH rc' rz') as [IH1 IH2]. split.
    + intros t. rewrite IH1, Hf, csum_cons. apply C_ext; cbn [re im cadd]; ring.
    + rewrite IH2, Hs, rsum_cons. ring.
Qed.

Lemma std_sumj_sum (omega : R) (i : Z) (t : R) :
  std_sumj omega i t = cadd C0 (csum (map (fun j => std_term omega i j t) (range (i + 2)))).
Proof. unfold std_sumj. apply (fold_tarray (fun j t => std_term omega i j t)). Qed.

Lemma std_loop_sum (omega : R) (i_max : Z) :
  (forall t, fst (std_loop omega i_max) t
     = cadd C0 (csum (map (fun i => cmulr (std_sumj omega i t) (exp (- beta * Ei i omega false)))
                         (range (i_max + 1))))) /\
  snd (std_loop omega i_max) = 0 + rsum (fun i => exp (- beta * Ei i omega false)) (range (i_max + 1)).
Proof.
  apply pair_fold. intros rc rz i. cbn. split; reflexivity.
Qed.

(** [Cqq_std] is [omega] times the spec's sum: the matrix elements it uses
    are those of [omega = 1]. *)
Lemma Cqq_std_scaled (t : ndarray R) (omega : R) (i_max : Z)
  (Hw : 0 < omega) (Hi : (0 < i_max)%Z) :
  Cqq_std t omega i_max = amap (fun x => rmulc omega (Cqq_std_spec x omega i_max)) t.
Proof.
  destruct (std_loop_sum omega i_max) as [H1 H2].
  unfold Cqq_std. destruct (std_loop omega i_max) as [rc rz]. cbn [fst snd] in H1, H2.
  replace (Z.ltb 0 i_max) with true by (symmetry; apply Z.ltb_lt, Hi).
  apply amap_ext. intros x. rewrite H1, H2. unfold Cqq_std_spec, partition_spec.
  assert (Hterm : forall i j,
    re (std_term omega i j x) * exp (- beta * Ei i omega false)
      = omega * re (rmulc (exp (- beta * E_spec omega i) * (q_spec omega i j * q_spec omega j i))
                       (rotation ((E_spec omega i - E_spec omega j) * x / hbar))) /\
    im (std_term omega i j x) * exp (- beta * Ei i omega false)
      = omega * im (rmulc (exp (- beta * E_spec omega i) * (q_spec omega i j * q_spec omega j i))
                       (rotation ((E_spec omega i - E_spec omega j) * x / hbar)))).
  { intros i j. unfold std_term. rewrite phase_rotation, !qij_spec, (q_spec_prod omega i j Hw).
    rewrite !Ei_spec. cbn [re im cmulr rmulc rotation]. split; field; lra. }
  apply C_ext; cbn [re im cdivr cadd C0 rmulc]; rewrite ?re_csum, ?im_csum, !rsum_map.
  - rewrite !Rplus_0_l. unfold Rdiv. rewrite <- Rmult_assoc. f_equal.
    rewrite Rmult_comm, rsum_scale. apply rsum_ext. intros i _.
    cbn [re cmulr]. rewrite std_sumj_sum. cbn [re cadd C0]. rewrite Rplus_0_l.
    rewrite re_csum, !rsum_map, re_csum, rsum_map, rsum_scale, rsum_scale.
    apply rsum_ext. intros j _. rewrite (proj1 (Hterm i j)). unfold Rdiv. ring.
  - rewrite !Rplus_0_l. unfold Rdiv. rewrite <- Rmult_assoc. f_equal.
    rewrite Rmult_comm, rsum_scale. apply rsum_ext. intros i _.
    cbn [im cmulr]. rewrite std_sumj_sum. cbn [im cadd C0]. rewrite Rplus_0_l.
    rewrite im_csum, !rsum_map, im_csum, rsum_map, rsum_scale, rsum_scale.
    apply rsum_ext. intros j _. rewrite (proj2 (Hterm i j)). unfold Rdiv. ring.
Qed.

(** *** [Cqq_kubo] *)
Lemma linspace_length (a b : R) (n : nat) : length (linspace a b n) = n.
Proof.
  destruct n as [|[|n]]; try reflexivity.
  unfold linspace. rewrite length_map, length_seq. reflexivity.
Qed.

(** On a grid of at least two points, [lterm] is the spec's weight. *)
Lemma lterm_linspace (L : nat) (i j : Z) (HL : (2 <= L)%nat) :
  lterm (linspace 0 beta L) i j = Some (lterm_spec 1 L i j).
Proof.
  destruct L as [|[|L']]; try lia.
  set (d := (beta - 0) / INR (S (S L') - 1)).
  set (h := fun k => INR k * d + 0).
  assert (Hg : linspace 0 beta (S (S L')) = map h (seq 0 (S (S L')))) by reflexivity.
  unfold lterm. rewrite Hg.
  replace (nth_error (map h (seq 0 (S (S L')))) 1) with (Some (h 1%nat)) by reflexivity.
  replace (nth_error (map h (seq 0 (S (S L')))) 0) with (Some (h 0%nat)) by reflexivity.
  f_equal. unfold sum, lterm_spec. rewrite fold_left_Rplus, !rsum_map.
  replace (rsum (fun x => exp (- h x * (Ei j 1 false - Ei i 1 false))) (seq 0 (S (S L'))))
    with (rsum (fun k => exp (- (INR k * (beta / INR (S (S L') - 1)))
                              * (E_spec 1 j - E_spec 1 i))) (seq 0 (S (S L')))).
  - unfold h, d. cbn [INR]. unfold beta. field.
    apply not_0_INR. lia.
  - apply rsum_ext. intros k _. f_equal. unfold h, d. rewrite !Ei_spec.
    unfold beta. rewrite Rminus_0_r, Rplus_0_r. reflexivity.
Qed.

Lemma kubo_inner_some (L : nat) (HL : (2 <= L)%nat) (i : Z) (rc : tarray) :
  kubo_inner (linspace 0 beta L) i rc
  = Some (fold_left (fun a j => fun t => cadd (a t) (kubo_term (lterm_spec 1 L i j) i j t))
            (range (i + 2)) rc).
Proof.
  unfold kubo_inner. apply ofold_some. intros a j.
  rewrite lterm_linspace by exact HL. reflexivity.
Qed.

Lemma kubo_loop_sum (L : nat) (HL : (2 <= L)%nat) (i_max : Z) :
  exists rc rz,
    kubo_loop (linspace 0 beta L) i_max = Some (rc, rz) /\
    (forall t, rc t = cadd C0 (csum (map (fun i =>
        cadd C0 (csum (map (fun j => kubo_term (lterm_spec 1 L i j) i j t) (range (i + 2)))))
        (range (i_max + 1))))) /\
    rz = 0 + rsum (fun i => exp (- beta * Ei i 1 false)) (range (i_max + 1)).
Proof.
  set (F := fun (acc : tarray * R) i =>
    let '(rcqq, rz) := acc in
    (fold_left (fun a j => fun t => cadd (a t) (kubo_term (lterm_spec 1 L i j) i j t))
       (range (i + 2)) rcqq, rz + exp (- beta * Ei i 1 false))).
  assert (Hl : kubo_loop (linspace 0 beta L) i_max = Some (fold_left F (range (i_max + 1)) (tzero, 0))).
  { unfold kubo_loop. apply ofold_some. intros [rcqq rz] i. cbn [kubo_body].
    rewrite kubo_inner_some by exact HL. reflexivity. }
  destruct (pair_fold F
              (fun i t => cadd C0 (csum (map (fun j => kubo_term (lterm_spec 1 L i j) i j t) (range (i + 2)))))
              (fun i => exp (- beta * Ei i 1 false))) with (l := range (i_max + 1)) (rc := tzero) (rz := 0)
    as [H1 H2].
  { intros rc rz i. cbn [F fst snd]. split; [|reflexivity].
    intros t. rewrite (fold_tarray (fun j t => kubo_term (lterm_spec 1 L i j) i j t)).
    apply C_ext; cbn [re im cadd C0]; ring. }
  rewrite Hl. destruct (fold_left F (range (i_max + 1)) (tzero, 0)) as [rc rz].
  exists rc, rz. split; [reflexivity|]. split; [exact H1 | exact H2].
Qed.

(** On a grid of at least two points and at [omega = 1], [Cqq_kubo] is
    the spec's Kubo sum. *)
Lemma Cqq_kubo_spec_eq (t : ndarray R) (omega : R) (i_max : Z) (L : nat)
  (HL : (2 <= L)%nat) (Hi : (0 < i_max)%Z) :
  Cqq_kubo t omega i_max L = Some (amap (fun x => Cqq_kubo_spec x 1 i_max L) t).
Proof.
  destruct (kubo_loop_sum L HL i_max) as (rc & rz & Hl & H1 & H2).
  unfold Cqq_kubo. rewrite Hl.
  replace (Z.ltb 0 i_max) with true by (symmetry; apply Z.ltb_lt, Hi).
  f_equal. apply amap_ext. intros x. rewrite H1, H2.
  unfold Cqq_kubo_spec, partition_spec.
  assert (Hterm : forall i j,
    re (kubo_term (lterm_spec 1 L i j) i j x)
      = re (rmulc (lterm_spec 1 L i j * exp (- beta * E_spec 1 i) * (q_spec 1 i j * q_spec 1 j i))
              (rotation ((E_spec 1 i - E_spec 1 j) * x / hbar))) /\
    im (kubo_term (lterm_spec 1 L i j) i j x)
      = im (rmulc (lterm_spec 1 L i j * exp (- beta * E_spec 1 i) * (q_spec 1 i j * q_spec 1 j i))
              (rotation ((E_spec 1 i - E_spec 1 j) * x / hbar)))).
  { intros i j. unfold kubo_term. rewrite phase_rotation, !qij_spec, !Ei_spec.
    cbn [re im cmulr rmulc rotation]. split; ring. }
  apply C_ext; cbn [re im cdivr cadd C0]; rewrite ?re_csum, ?im_csum, !rsum_map, !Rplus_0_l;
    f_equal; apply rsum_ext; intros i _; cbn [re im cadd C0];
    rewrite ?re_csum, ?im_csum, !rsum_map, Rplus_0_l; apply rsum_ext; intros j _.
  - apply (proj1 (Hterm i j)).
  - apply (proj2 (Hterm i j)).
Qed.

(** A grid of fewer than two points makes the first [lterm] raise. *)
Lemma kubo_loop_short_grid (L : nat) (HL : (L <= 1)%nat) (i_max : Z) (Hi : (0 <= i_max)%Z) :
  kubo_loop (linspace 0 beta L) i_max = None.
Proof.
  assert (Hn : nth_error (linspace 0 beta L) 1 = None).
  { apply nth_error_None. rewrite linspace_length. exact HL. }
  unfold kubo_loop, ofold. rewrite range_succ by exact Hi. cbn [fold_left kubo_body].
  assert (Hin : kubo_inner (linspace 0 beta L) 0 tzero = None).
  { unfold kubo_inner, ofold. replace (range (0 + 2)) with [0%Z; 1%Z] by reflexivity.
    cbn [fold_left]. unfold lterm at 1. rewrite Hn. reflexivity. }
  rewrite Hin. apply ofold_none.
Qed.

(** *** At [t = 0] *)
Lemma q_spec_square (omega : R) (i j : Z) :
  q_spec omega i j * q_spec omega j i = q_spec omega i j * q_spec omega i j.
Proof. rewrite (q_spec_sym omega j i). reflexivity. Qed.

Lemma partition_pos (omega : R) (i_max : Z) (Hi : (0 <= i_max)%Z) :
  0 < partition_spec omega i_max.
Proof.
  unfold partition_spec. rewrite range_succ by exact Hi. rewrite rsum_cons.
  pose proof (exp_pos (- beta * E_spec omega 0)).
  assert (0 <= rsum (fun i => exp (- beta * E_spec omega i)) (map Z.succ (range i_max))).
  { apply rsum_nonneg. intros x _. left. apply exp_pos. }
  lra.
Qed.

Lemma std_spec_at_zero (omega : R) (i_max : Z) (Hi : (0 <= i_max)%Z) :
  let z := Cqq_std_spec 0 omega i_max in
  re z * partition_spec omega i_max
    = rsum (fun i => rsum (fun j => exp (- beta * E_spec omega i)
                                   * (q_spec omega i j * q_spec omega i j))
                      (range (i + 2))) (range (i_max + 1)) /\
  im z = 0.
Proof.
  assert (Hr : forall a b, rotation ((a - b) * 0 / hbar) = mkC 1 0).
  { intros a b. unfold rotation, hbar.
    replace ((a - b) * 0 / 1) with 0 by field. rewrite cos_0, sin_0.
    f_equal. ring. }
  cbn zeta. unfold Cqq_std_spec. cbn [re im cdivr].
  rewrite re_csum, im_csum, !rsum_map. split.
  - unfold Rdiv in Hr |- *. rewrite Rmult_assoc.
    pose proof (partition_pos omega i_max Hi) as HZ.
    rewrite Rinv_l by lra. rewrite Rmult_1_r.
    apply rsum_ext. intros i _. rewrite re_csum, rsum_map.
    apply rsum_ext. intros j _. rewrite Hr, q_spec_square. cbn [re rmulc]. ring.
  - rewrite (rsum_ext _ (fun _ => 0)); [rewrite rsum_zero; unfold Rdiv; ring|].
    intros i _. rewrite im_csum, rsum_map, (rsum_ext _ (fun _ => 0)); [apply rsum_zero|].
    intros j _. rewrite Hr. cbn [im rmulc]. ring.
Qed.

Lemma std_spec_at_zero_nonneg (omega : R) (i_max : Z) (Hi : (0 <= i_max)%Z) :
  0 <= re (Cqq_std_spec 0 omega i_max) /\ im (Cqq_std_spec 0 omega i_max) = 0.
Proof.
  destruct (std_spec_at_zero omega i_max Hi) as [H1 H2]. split; [|exact H2].
  pose proof (partition_pos omega i_max Hi) as HZ.
  assert (Hs : 0 <= rsum (fun i => rsum (fun j => exp (- beta * E_spec omega i)
                                   * (q_spec omega i j * q_spec omega i j))
                      (range (i + 2))) (range (i_max + 1))).
  { apply rsum_nonneg. intros i _. apply rsum_nonneg. intros j _.
    apply Rmult_le_pos; [left; apply exp_pos | apply Rle_0_sqr]. }
  nra.
Qed.

Lemma q_spec_adjacent (omega : R) (i j : Z) :
  Z.abs (i - j) = 1%Z ->
  q_spec omega i j = sqrt (hbar / (2 * m * omega)) * sqrt (IZR (Z.max i j)).
Proof. intros H. unfold q_spec. rewrite H. reflexivity. Qed.

Lemma q_spec_far (omega : R) (i j : Z) : Z.abs (i - j) <> 1%Z -> q_spec omega i j = 0.
Proof.
  intros H. unfold q_spec. destruct (Z.eqb_spec (Z.abs (i - j)) 1); [contradiction|reflexivity].
Qed.

Lemma std_spec_at_zero_pos (omega : R) (i_max : Z) (Hw : 0 < omega) (Hi : (0 <= i_max)%Z) :
  0 < re (Cqq_std_spec 0 omega i_max).
Proof.
  destruct (std_spec_at_zero omega i_max Hi) as [H1 _].
  pose proof (partition_pos omega i_max Hi) as HZ.
  set (g := fun i j => exp (- beta * E_spec omega i) * (q_spec omega i j * q_spec omega i j)) in H1.
  assert (Hg : forall i j, 0 <= g i j).
  { intros i j. apply Rmult_le_pos; [left; apply exp_pos | apply Rle_0_sqr]. }
  assert (H01 : 0 < g 0%Z 1%Z).
  { unfold g. apply Rmult_lt_0_compat; [apply exp_pos|].
    rewrite q_spec_adjacent by reflexivity. replace (Z.max 0 1) with 1%Z by reflexivity.
    rewrite sqrt_1, Rmult_1_r. apply Rsqr_pos_lt.
    apply Rgt_not_eq, sqrt_lt_R0. unfold hbar, m. apply Rdiv_lt_0_compat; lra. }
  rewrite range_succ in H1 by exact Hi. rewrite rsum_cons in H1. cbv beta in H1.
  replace (range (0 + 2)) with [0%Z; 1%Z] in H1 by reflexivity.
  rewrite !rsum_cons, rsum_nil in H1.
  assert (0 <= rsum (fun i => rsum (fun j => g i j) (range (i + 2))) (map Z.succ (range i_max))).
  { apply rsum_nonneg. intros i _. apply rsum_nonneg. intros j _. apply Hg. }
  pose proof (Hg 0%Z 0%Z).
  unfold g in H, H0, H01.
  assert (0 < re (Cqq_std_spec 0 omega i_max) * partition_spec omega i_max) by lra.
  nra.
Qed.

(** *** Bounds on sums over the grid and the levels [0, 1, 2] *)
Lemma rsum_le_const {X : Type} (g : X -> R) (c : R) (l : list X) :
  (forall x, In x l -> g x <= c) -> rsum g l <= INR (length l) * c.
Proof.
  induction l as [|x l IH]; intros H.
  - rewrite rsum_nil. cbn [length INR]. lra.
  - rewrite rsum_cons, length_cons, S_INR.
    assert (g x <= c) by (apply H; left; reflexivity).
    assert (rsum g l <= INR (length l) * c) by (apply IH; intros y Hy; apply H; right; exact Hy).
    lra.
Qed.

Lemma rsum_ge_const {X : Type} (g : X -> R) (c : R) (l : list X) :
  (forall x, In x l -> c <= g x) -> INR (length l) * c <= rsum g l.
Proof.
  induction l as [|x l IH]; intros H.
  - rewrite rsum_nil. cbn [length INR]. lra.
  - rewrite rsum_cons, length_cons, S_INR.
    assert (c <= g x) by (apply H; left; reflexivity).
    assert (INR (length l) * c <= rsum g l) by (apply IH; intros y Hy; apply H; right; exact Hy).
    lra.
Qed.

Lemma exp_mono (x y : R) : x <= y -> exp x <= exp y.
Proof.
  intros H. destruct (Req_dec x y) as [->|Hne]; [lra|].
  left. apply exp_increasing. lra.
Qed.

Lemma grid_step_1000 : beta / INR (1000 - 1) = / 999.
Proof.
  unfold beta. replace (INR (1000 - 1)) with 999 by (rewrite INR_IZR_INZ; reflexivity).
  field.
Qed.

Lemma qq_adjacent (omega : R) (i j : Z) (Hw : 0 < omega) :
  Z.abs (i - j) = 1%Z -> (0 <= Z.max i j)%Z ->
  q_spec omega i j * q_spec omega j i = hbar / (2 * m * omega) * IZR (Z.max i j).
Proof.
  intros H Hm. rewrite (q_spec_adjacent omega i j H), (q_spec_adjacent omega j i) by lia.
  rewrite (Z.max_comm j i).
  replace (sqrt (hbar / (2 * m * omega)) * sqrt (IZR (Z.max i j))
           * (sqrt (hbar / (2 * m * omega)) * sqrt (IZR (Z.max i j))))
    with ((sqrt (hbar / (2 * m * omega)) * sqrt (hbar / (2 * m * omega)))
          * (sqrt (IZR (Z.max i j)) * sqrt (IZR (Z.max i j)))) by ring.
  rewrite !sqrt_sqrt; [reflexivity | apply IZR_le; exact Hm |].
  unfold hbar, m. left. apply Rdiv_lt_0_compat; lra.
Qed.

Lemma weight_0 : exp (- beta * E_spec 1 0) = 1.
Proof. unfold beta, E_spec, hbar. rewrite <- exp_0. f_equal. ring. Qed.

Lemma weight_1 : exp (- beta * E_spec 1 1) = exp (-1).
Proof. unfold beta, E_spec, hbar. f_equal. ring. Qed.

Lemma partition_1_1 : partition_spec 1 1 = 1 + exp (-1).
Proof.
  unfold partition_spec. replace (range (1 + 1)) with [0%Z; 1%Z] by reflexivity.
  rewrite !rsum_cons, rsum_nil, weight_0, weight_1. ring.
Qed.

(** *** Small facts used by the statements below *)
Lemma amap_times_zero (t : ndarray R) :
  amap (fun x => of_real (x * 0)) t = amap (fun _ => C0) t.
Proof.
  apply amap_ext. intros x. unfold of_real, C0. f_equal. ring.
Qed.

Lemma kubo_loop_some (L : nat) (HL : (2 <= L)%nat) (i_max : Z) :
  exists acc, kubo_loop (linspace 0 beta L) i_max = Some acc.
Proof.
  destruct (kubo_loop_sum L HL i_max) as (rc & rz & Hl & _). exists (rc, rz). exact Hl.
Qed.

End CorrFacts.

(** ** The Kubo sum at [t = 0] for two frequencies *)
Module CorrOmega.
Import Corr.
Local Open Scope R_scope.

(** The real part of the double sum at [t = 0], [i_max = 1], for any
    frequency [omega > 0] and any weights [W i j]. *)
Lemma re_at_zero (omega : R) (Hw : 0 < omega) (W : Z -> Z -> R) :
  rsum (fun i => rsum (fun j =>
      re (rmulc (W i j * (q_spec omega i j * q_spec omega j i))
                (rotation ((E_spec omega i - E_spec omega j) * 0 / hbar))))
      (range (i + 2))) (range (1 + 1))
  = (W 0%Z 1%Z + W 1%Z 0%Z + 2 * W 1%Z 2%Z) / (2 * omega).
Proof.
  replace (range (1 + 1)) with [0%Z; 1%Z] by reflexivity.
  rewrite !CorrFacts.rsum_cons, CorrFacts.rsum_nil. cbv beta.
  replace (range (0 + 2)) with [0%Z; 1%Z] by reflexivity.
  replace (range (1 + 2)) with [0%Z; 1%Z; 2%Z] by reflexivity.
  rewrite !CorrFacts.rsum_cons, !CorrFacts.rsum_nil. cbn [re rmulc rotation].
  rewrite (CorrFacts.q_spec_far omega 0 0), (CorrFacts.q_spec_far omega 1 1) by lia.
  rewrite (CorrFacts.qq_adjacent omega 0 1), (CorrFacts.qq_adjacent omega 1 0),
    (CorrFacts.qq_adjacent omega 1 2) by first [lra | lia].
  change (Z.max 0 1) with 1%Z. change (Z.max 1 0) with 1%Z. change (Z.max 1 2) with 2%Z.
  assert (H0 : forall a, a * 0 / hbar = 0) by (intros a; unfold hbar; field).
  rewrite !H0, cos_0. unfold hbar, m. field. lra.
Qed.

(** [lterm_spec] on the default grid of [1000] points lies between
    [1000/999] times any bounds of its terms. *)
Lemma lterm_between (omega : R) (i j : Z) (lo hi : R) :
  (forall s, 0 <= s <= 1 ->
     lo <= exp (- s * (E_spec omega j - E_spec omega i)) <= hi) ->
  1000 / 999 * lo <= lterm_spec omega 1000 i j <= 1000 / 999 * hi.
Proof.
  intros Hb. unfold lterm_spec. cbn zeta. rewrite CorrFacts.grid_step_1000.
  assert (Hs : forall k, In k (seq 0 1000) -> 0 <= INR k * / 999 <= 1).
  { intros k Hk. apply in_seq in Hk. pose proof (pos_INR k).
    assert (Hk' : INR k <= INR 999) by (apply le_INR; lia).
    replace (INR 999) with 999 in Hk' by (rewrite INR_IZR_INZ; reflexivity).
    split; [apply Rmult_le_pos; lra |].
    apply Rmult_le_reg_r with 999; [lra|]. rewrite Rmult_assoc, Rinv_l by lra. lra. }
  assert (H1 : rsum (fun k => exp (- (INR k * / 999) * (E_spec omega j - E_spec omega i)))
                 (seq 0 1000) <= INR (length (seq 0 1000)) * hi).
  { apply CorrFacts.rsum_le_const. intros k Hk. apply Hb, Hs, Hk. }
  assert (H2 : INR (length (seq 0 1000)) * lo <=
               rsum (fun k => exp (- (INR k * / 999) * (E_spec omega j - E_spec omega i)))
                 (seq 0 1000)).
  { apply CorrFacts.rsum_ge_const. intros k Hk. apply Hb, Hs, Hk. }
  rewrite length_seq in H1, H2.
  replace (INR 1000) with 1000 in H1, H2 by (rewrite INR_IZR_INZ; reflexivity).
  unfold beta. lra.
Qed.

Lemma exp_le_1 (a : R) : a <= 0 -> exp a <= 1.
Proof. intros H. rewrite <- exp_0. apply CorrFacts.exp_mono, H. Qed.

Lemma one_le_exp (a : R) : 0 <= a -> 1 <= exp a.
Proof. intros H. rewrite <- exp_0. apply CorrFacts.exp_mono, H. Qed.

Lemma exp_neg_1_ge : 1 / 3 <= exp (-1).
Proof.
  assert (H : exp (-1) * exp 1 = 1) by (rewrite <- exp_plus; replace (-1 + 1) with 0 by ring; apply exp_0).
  pose proof exp_le_3. pose proof (exp_pos (-1)). nra.
Qed.

(** At [omega = 1] (the frequency [Cqq_kubo] uses), the real part of the
    Kubo sum at [t = 0] is at least [(1000/999) exp(-1)]. *)
Lemma kubo_spec_zero_1 : 1000 / 999 * exp (-1) <= re (Cqq_kubo_spec 0 1 1 1000).
Proof.
  unfold Cqq_kubo_spec. cbn [re cdivr]. rewrite CorrFacts.re_csum, CorrFacts.rsum_map.
  erewrite CorrFacts.rsum_ext;
    [| intros i _; rewrite CorrFacts.re_csum, CorrFacts.rsum_map; reflexivity].
  pose proof (re_at_zero 1 ltac:(lra)
    (fun i j => lterm_spec 1 1000 i j * exp (- beta * E_spec 1 i))) as H.
  cbv beta in H. rewrite H, CorrFacts.partition_1_1, CorrFacts.weight_0, CorrFacts.weight_1.
  set (x := exp (-1)). assert (0 < x) by apply exp_pos.
  assert (Hx1 : x <= 1) by (unfold x; rewrite <- exp_0; apply CorrFacts.exp_mono; lra).
  assert (E01 : E_spec 1 1 - E_spec 1 0 = 1) by (unfold E_spec, hbar; ring).
  assert (E10 : E_spec 1 0 - E_spec 1 1 = -1) by (unfold E_spec, hbar; ring).
  assert (E12 : E_spec 1 2 - E_spec 1 1 = 1) by (unfold E_spec, hbar; ring).
  assert (A01 : 1000 / 999 * x <= lterm_spec 1 1000 0 1).
  { apply (lterm_between 1 0 1 x 1). intros s Hs. rewrite E01. unfold x.
    split; [apply CorrFacts.exp_mono | apply exp_le_1]; nra. }
  assert (A10 : 1000 / 999 * 1 <= lterm_spec 1 1000 1 0).
  { apply (lterm_between 1 1 0 1 (exp 1)). intros s Hs. rewrite E10.
    split; [apply one_le_exp | apply CorrFacts.exp_mono]; nra. }
  assert (A12 : 1000 / 999 * x <= lterm_spec 1 1000 1 2).
  { apply (lterm_between 1 1 2 x 1). intros s Hs. rewrite E12. unfold x.
    split; [apply CorrFacts.exp_mono | apply exp_le_1]; nra. }
  set (c := 1000 / 999) in *. assert (0 < c) by (unfold c; lra).
  set (N := (lterm_spec 1 1000 0 1 * 1 + lterm_spec 1 1000 1 0 * x
             + 2 * (lterm_spec 1 1000 1 2 * x)) / (2 * 1)).
  assert (HN : c * x * (1 + x) <= N) by (unfold N; nra).
  apply Rmult_le_reg_r with (1 + x); [lra|].
  replace (N / (1 + x) * (1 + x)) with N by (field; lra).
  exact HN.
Qed.

(** At [omega = 10], the real part of the Kubo sum at [t = 0] is at most
    [(1000/999) / 5]. *)
Lemma kubo_spec_zero_10 : re (Cqq_kubo_spec 0 10 1 1000) <= 1000 / 999 / 5.
Proof.
  unfold Cqq_kubo_spec. cbn [re cdivr]. rewrite CorrFacts.re_csum, CorrFacts.rsum_map.
  erewrite CorrFacts.rsum_ext;
    [| intros i _; rewrite CorrFacts.re_csum, CorrFacts.rsum_map; reflexivity].
  pose proof (re_at_zero 10 ltac:(lra)
    (fun i j => lterm_spec 10 1000 i j * exp (- beta * E_spec 10 i))) as H.
  cbv beta in H. rewrite H.
  assert (W0 : exp (- beta * E_spec 10 0) = 1)
    by (unfold beta, E_spec, hbar; rewrite <- exp_0; f_equal; ring).
  assert (W1 : exp (- beta * E_spec 10 1) = exp (-10))
    by (unfold beta, E_spec, hbar; f_equal; ring).
  assert (HZ : partition_spec 10 1 = 1 + exp (-10)).
  { unfold partition_spec. replace (range (1 + 1)) with [0%Z; 1%Z] by reflexivity.
    rewrite !CorrFacts.rsum_cons, CorrFacts.rsum_nil, W0, W1. ring. }
  rewrite HZ, W0, W1.
  set (y := exp (-10)). assert (0 < y) by apply exp_pos.
  assert (Hy1 : y <= 1) by (unfold y; rewrite <- exp_0; apply CorrFacts.exp_mono; lra).
  assert (Hyy : y * exp 10 = 1) by (unfold y; rewrite <- exp_plus; replace (-10 + 10) with 0 by ring; apply exp_0).
  assert (E01 : E_spec 10 1 - E_spec 10 0 = 10) by (unfold E_spec, hbar; ring).
  assert (E10 : E_spec 10 0 - E_spec 10 1 = -10) by (unfold E_spec, hbar; ring).
  assert (E12 : E_spec 10 2 - E_spec 10 1 = 10) by (unfold E_spec, hbar; ring).
  assert (A01 : 1000 / 999 * y <= lterm_spec 10 1000 0 1 <= 1000 / 999 * 1).
  { apply lterm_between. intros s Hs. rewrite E01. unfold y.
    split; [apply CorrFacts.exp_mono | apply exp_le_1]; nra. }
  assert (A10 : 1000 / 999 * 1 <= lterm_spec 10 1000 1 0 <= 1000 / 999 * exp 10).
  { apply lterm_between. intros s Hs. rewrite E10.
    split; [apply one_le_exp | apply CorrFacts.exp_mono]; nra. }
  assert (A12 : 1000 / 999 * y <= lterm_spec 10 1000 1 2 <= 1000 / 999 * 1).
  { apply lterm_between. intros s Hs. rewrite E12. unfold y.
    split; [apply CorrFacts.exp_mono | apply exp_le_1]; nra. }
  set (c := 1000 / 999) in *. assert (0 < c) by (unfold c; lra).
  assert (B10 : lterm_spec 10 1000 1 0 * y <= c) by nra.
  set (N := lterm_spec 10 1000 0 1 * 1 + lterm_spec 10 1000 1 0 * y
            + 2 * (lterm_spec 10 1000 1 2 * y)).
  assert (HN0 : 0 <= N) by (unfold N; nra).
  assert (HN : N <= 4 * c) by (unfold N; nra).
  apply Rmult_le_reg_r with (1 + y); [lra|].
  replace (N / (2 * 10) / (1 + y) * (1 + y)) with (N / 20) by (field; lra).
  unfold c in *. lra.
Qed.

End CorrOmega.
(** * The claims *)
Import Verlet.
Local Open Scope R_scope.

(** C5: the trajectory cell performs [N = int(tmax/dt)] passes (none when
    the ratio is negative); pass [k] applies the half-kick, drift, half-kick
    update [k+1] times to [(p0, q0)], and the three lists hold, in order,
    the momentum, the position and the force after each pass, without the
    initial state. With [p0 = 0], [q0 = 1], [dt = 0.01] and one pass the
    recorded position is [0.99995], both exactly and in double precision. *)
Theorem integrator_records_post_step_states (p0 q0 dt tmax : R) (Hdt : 0 < dt) :
  let N := steps_of tmax dt in
  let tr := run f dt N p0 q0 in
  (0 <= tmax -> Z.of_nat N = py_int (tmax / dt)) /\
  length (plist tr) = N /\ length (qlist tr) = N /\ length (flist tr) = N /\
  (forall k, (k < N)%nat ->
     let '(p, q) := iter f dt (S k) (p0, q0) in
     nth_error (plist tr) k = Some p /\ nth_error (qlist tr) k = Some q /\
     nth_error (flist tr) k = Some (f q)) /\
  qlist (run f (1 / 100) 1 0 1) = [99995 / 100000] /\
  qlist (run f 0.01%float 1 0%float 1%float) = [0.99995%float].
Proof.
  intros N tr. split; [|split; [|split; [|split; [|split; [|split]]]]].
  - intros Ht. apply StepCount.steps_of_int.
    unfold Rdiv. apply Rmult_le_pos; [lra | left; apply Rinv_0_lt_compat, Hdt].
  - unfold tr. rewrite VerletFacts.run_states. cbn [plist].
    rewrite length_map. apply VerletFacts.states_length.
  - unfold tr. rewrite VerletFacts.run_states. cbn [qlist].
    rewrite length_map. apply VerletFacts.states_length.
  - unfold tr. rewrite VerletFacts.run_states. cbn [flist].
    rewrite length_map. apply VerletFacts.states_length.
  - intros k Hk. unfold tr. rewrite VerletFacts.run_states. cbn [plist qlist flist].
    rewrite !nth_error_map, VerletFacts.nth_states by exact Hk.
    destruct (iter f dt (S k) (p0, q0)). repeat split.
  - cbn -[Rdiv]. unfold f. cbn. f_equal. field.
  - vm_compute. reflexivity.
Qed.

(** C8: in exact arithmetic, one pass of the loop with [f(q) = -q] takes
    [(-p_{k+1}, q_{k+1})] to [(-p_k, q_k)]; hence the reversed run of the
    last cell, read backwards, gives the positions [q_0, ..., q_{N-1}]: the
    forward list [q_1, ..., q_N] shifted by one step. *)
Theorem reversal_is_exact_one_step_shift (p0 q0 dt : R) (N : nat) (HN : (1 <= N)%nat) :
  (forall k, (k < N)%nat ->
     step f dt (flip (iter f dt (S k) (p0, q0))) = flip (iter f dt k (p0, q0))) /\
  exists inv,
    run_inverse f dt N (run f dt N p0 q0) = Some inv /\
    rev (qlist inv) = q0 :: removelast (qlist (run f dt N p0 q0)).
Proof.
  split.
  - intros k _. rewrite VerletFacts.iter_S. apply VerletFacts.step_flip.
  - destruct N as [|n]; [lia|].
    destruct (VerletFacts.inverse_positions f dt n p0 q0) as (inv & H1 & _ & H3).
    exists inv. split; assumption.
Qed.

Lemma reversal_is_exact_one_step_shift_witness :
  (1 <= 3)%nat /\
  ((forall k, (k < 3)%nat ->
     step f (1 / 100) (flip (iter f (1 / 100) (S k) (1, 0)))
     = flip (iter f (1 / 100) k (1, 0))) /\
   exists inv,
     run_inverse f (1 / 100) 3 (run f (1 / 100) 3 1 0) = Some inv /\
     rev (qlist inv) = 0 :: removelast (qlist (run f (1 / 100) 3 1 0))).
Proof. split; [lia | apply reversal_is_exact_one_step_shift; lia]. Defined.

(** C1 (counterexample): at [p0 = 1], [q0 = 0], [dt = 0.01], [N = 10000],
    in double precision, the reversed run read backwards does not match the
    forward positions elementwise within [1e-10]. *)
Lemma reversal_elementwise_fails :
  FloatRuns.reversal_matches 1e-10%float 1%float 0%float 0.01%float 10000 = false.
Proof.
  rewrite FloatFacts.reversal_matches_states by reflexivity. vm_compute. reflexivity.
Qed.

(** C1 (amended): read backwards, the reversed run gives the forward
    positions shifted by one step: exactly [q_0, ..., q_{N-1}] in exact
    arithmetic for every [(p0, q0)], [dt] and [N >= 1], and within [1e-10]
    of that sequence in double precision at [p0 = 1], [q0 = 0],
    [dt = 0.01], [N = 10000]. *)
Theorem reversal_matches_shifted_positions (p0 q0 dt : R) (N : nat) (HN : (1 <= N)%nat) :
  (exists inv,
     run_inverse f dt N (run f dt N p0 q0) = Some inv /\
     rev (qlist inv) = q0 :: removelast (qlist (run f dt N p0 q0))) /\
  FloatRuns.shifted_reversal_matches 1e-10%float 1%float 0%float 0.01%float 10000 = true.
Proof.
  split.
  - destruct N as [|n]; [lia|].
    destruct (VerletFacts.inverse_positions f dt n p0 q0) as (inv & H1 & _ & H3).
    exists inv. split; assumption.
  - rewrite FloatFacts.shifted_reversal_matches_states by reflexivity.
    vm_compute. reflexivity.
Qed.

Lemma reversal_matches_shifted_positions_witness :
  (1 <= 2)%nat /\
  ((exists inv,
     run_inverse f (1 / 100) 2 (run f (1 / 100) 2 1 0) = Some inv /\
     rev (qlist inv) = 0 :: removelast (qlist (run f (1 / 100) 2 1 0))) /\
   FloatRuns.shifted_reversal_matches 1e-10%float 1%float 0%float 0.01%float 10000 = true).
Proof. split; [lia | apply reversal_matches_shifted_positions; lia]. Defined.

(** C7: with [f(q) = -q] and [0 < dt < 2], every recorded state has energy
    [p^2/2 + q^2/2] within [dt^2/8 (p0^2 + q0^2) / (1 - dt^2/4)], an
    [O(dt^2)] bound, of the initial energy (exact arithmetic); in double
    precision the last state of the run [p0 = 1], [q0 = 0], [dt = 0.01],
    [10000] passes has energy within [1e-4] of the initial one. *)
Theorem energy_stays_within_dt2 (p0 q0 dt : R) (N : nat) (Hdt : 0 < dt < 2) :
  (forall k p q, (k < N)%nat ->
     nth_error (plist (run f dt N p0 q0)) k = Some p ->
     nth_error (qlist (run f dt N p0 q0)) k = Some q ->
     Rabs (energy p q - energy p0 q0)
       <= dt ^ 2 / 8 * (p0 ^ 2 + q0 ^ 2) / (1 - dt ^ 2 / 4)) /\
  FloatRuns.final_energy_within 1e-4%float 1%float 0%float 0.01%float 10000 = true.
Proof.
  split.
  - intros k p q Hk Hp Hq. rewrite VerletFacts.run_states in Hp, Hq.
    cbn [plist qlist] in Hp, Hq.
    rewrite nth_error_map, VerletFacts.nth_states in Hp, Hq by exact Hk.
    pose proof (Harmonic.iter_energy_bound dt p0 q0 (S k) Hdt) as HB.
    destruct (iter f dt (S k) (p0, q0)) as [p' q'].
    cbn in Hp, Hq. injection Hp as <-. injection Hq as <-. exact HB.
  - rewrite FloatFacts.final_energy_within_iter by reflexivity.
    vm_compute. reflexivity.
Qed.

Lemma energy_stays_within_dt2_witness :
  0 < 1 / 100 < 2 /\
  ((forall k p q, (k < 5)%nat ->
     nth_error (plist (run f (1 / 100) 5 1 0)) k = Some p ->
     nth_error (qlist (run f (1 / 100) 5 1 0)) k = Some q ->
     Rabs (energy p q - energy 1 0)
       <= (1 / 100) ^ 2 / 8 * (1 ^ 2 + 0 ^ 2) / (1 - (1 / 100) ^ 2 / 4)) /\
   FloatRuns.final_energy_within 1e-4%float 1%float 0%float 0.01%float 10000 = true).
Proof. split; [lra | apply energy_stays_within_dt2; lra]. Defined.

Lemma integrator_records_post_step_states_witness :
  0 < 1 / 100 /\
  (let N := steps_of 1 (1 / 100) in
   let tr := run f (1 / 100) N 0 1 in
   (0 <= 1 -> Z.of_nat N = py_int (1 / (1 / 100))) /\
   length (plist tr) = N /\ length (qlist tr) = N /\ length (flist tr) = N /\
   (forall k, (k < N)%nat ->
      let '(p, q) := iter f (1 / 100) (S k) (0, 1) in
      nth_error (plist tr) k = Some p /\ nth_error (qlist tr) k = Some q /\
      nth_error (flist tr) k = Some (f q)) /\
   qlist (run f (1 / 100) 1 0 1) = [99995 / 100000] /\
   qlist (run f 0.01%float 1 0%float 1%float) = [0.99995%float]).
Proof. split; [lra | apply integrator_records_post_step_states; lra]. Defined.

Import Corr.

(** C4: [qij] is symmetric, vanishes unless [|i - j| = 1], and equals
    [sqrt(hbar/(2 m omega)) sqrt(max(i, j))] when [|i - j| = 1]; in
    particular [qij(1, 2) = sqrt(0.5) sqrt(2) = 1] and [qij(0, 0) = 0]
    (real arithmetic). *)
Theorem qij_symmetric_selection_rule (i j : Z) (omega : R) :
  qij i j omega = qij j i omega /\
  (Z.abs (i - j) <> 1%Z -> qij i j omega = 0) /\
  (Z.abs (i - j) = 1%Z ->
     qij i j omega = sqrt (hbar / (2 * m * omega)) * sqrt (IZR (Z.max i j))) /\
  qij 1 2 1 = sqrt (1 / 2) * sqrt 2 /\ sqrt (1 / 2) * sqrt 2 = 1 /\
  qij 0 0 1 = 0.
Proof.
  split; [|split; [|split; [|split; [|split]]]].
  - apply CorrFacts.qij_sym.
  - intros H. rewrite CorrFacts.qij_spec. apply CorrFacts.q_spec_far, H.
  - intros H. rewrite CorrFacts.qij_spec. apply CorrFacts.q_spec_adjacent, H.
  - rewrite CorrFacts.qij_spec, CorrFacts.q_spec_adjacent by reflexivity.
    change (Z.max 1 2) with 2%Z. f_equal. f_equal. unfold hbar, m. field.
  - rewrite <- sqrt_mult by lra. replace (1 / 2 * 2) with 1 by field. apply sqrt_1.
  - reflexivity.
Qed.

Lemma qij_symmetric_selection_rule_witness :
  (Z.abs (0 - 1) = 1%Z ->
     qij 0 1 1 = sqrt (hbar / (2 * m * 1)) * sqrt (IZR (Z.max 0 1))) /\
  (Z.abs (0 - 2) <> 1%Z -> qij 0 2 1 = 0).
Proof.
  split.
  - apply (qij_symmetric_selection_rule 0 1 1).
  - apply (qij_symmetric_selection_rule 0 2 1).
Defined.

(** C3: with [i_max = 0] both evaluators return [t * 0], the zero array of
    the shape of [t], for every [omega]; [Cqq_kubo] does so for every grid
    of at least two points, in particular the default [lgrid = 1000]. *)
Theorem imax_zero_gives_zeros (t : ndarray R) (omega : R) (lgrid : nat)
  (HL : (2 <= lgrid)%nat) :
  Cqq_std t omega 0 = amap (fun _ => C0) t /\
  Cqq_kubo t omega 0 lgrid = Some (amap (fun _ => C0) t).
Proof.
  split.
  - unfold Cqq_std. destruct (std_loop omega 0) as [rc rz].
    cbn [Z.ltb Z.compare]. apply CorrFacts.amap_times_zero.
  - unfold Cqq_kubo. destruct (CorrFacts.kubo_loop_some lgrid HL 0) as [[rc rz] ->].
    cbn [Z.ltb Z.compare]. rewrite CorrFacts.amap_times_zero. reflexivity.
Qed.

Lemma imax_zero_gives_zeros_witness :
  (2 <= 1000)%nat /\
  (Cqq_std (Axis [Scalar 0; Scalar 1]) 1 0 = amap (fun _ => C0) (Axis [Scalar 0; Scalar 1]) /\
   Cqq_kubo (Axis [Scalar 0; Scalar 1]) 1 0 1000
     = Some (amap (fun _ => C0) (Axis [Scalar 0; Scalar 1]))).
Proof. split; [lia | apply imax_zero_gives_zeros; lia]. Defined.

(** C10: with [lgrid = 1] the grid has one point, [lgrid[1]] raises
    [IndexError] in the first pass of the loop, and [Cqq_kubo] returns
    nothing, for every [t], [omega] and [i_max >= 0], [i_max = 0]
    included. *)
Theorem kubo_one_point_grid_raises (t : ndarray R) (omega : R) (i_max : Z)
  (Hi : (0 <= i_max)%Z) :
  Cqq_kubo t omega i_max 1 = None.
Proof.
  unfold Cqq_kubo. rewrite CorrFacts.kubo_loop_short_grid by (lia || exact Hi).
  reflexivity.
Qed.

Lemma kubo_one_point_grid_raises_witness :
  (0 <= 0)%Z /\ Cqq_kubo (Scalar 0) 1 0 1 = None.
Proof. split; [lia | apply kubo_one_point_grid_raises; lia]. Defined.

(** C6: for [omega > 0] and [i_max >= 1], [Cqq_std] at [t = 0] is a real,
    non-negative number. *)
Theorem std_at_zero_real_nonneg (omega : R) (i_max : Z)
  (Hw : 0 < omega) (Hi : (1 <= i_max)%Z) :
  exists z, Cqq_std (Scalar 0) omega i_max = Scalar z /\ im z = 0 /\ 0 <= re z.
Proof.
  rewrite CorrFacts.Cqq_std_scaled by (lra || lia). cbn [amap].
  eexists. split; [reflexivity|].
  destruct (CorrFacts.std_spec_at_zero_nonneg omega i_max) as [H1 H2]; [lia|].
  cbn [rmulc re im]. rewrite H2. split; [ring|].
  apply Rmult_le_pos; lra.
Qed.

Lemma std_at_zero_real_nonneg_witness :
  0 < 2 /\ (1 <= 3)%Z /\
  exists z, Cqq_std (Scalar 0) 2 3 = Scalar z /\ im z = 0 /\ 0 <= re z.
Proof. split; [lra | split; [lia | apply std_at_zero_real_nonneg; (lra || lia)]]. Defined.

(** C2 (divergence from the code): the evaluators do not return the sum
    at the requested frequency. [Cqq_std] passes [omega] to [Ei] but calls
    [qij(i, j)] and [qij(j, i)] without it, so for [omega > 0] it returns
    [omega] times the sum (twice the sum at [omega = 2], [i_max = 1],
    [t = 0]); [Cqq_kubo] never uses [omega], so it returns the same value for
    every frequency, and at [omega = 10], [i_max = 1], [lgrid = 1000],
    [t = 0] its real part is at least [(1000/999) exp(-1)], while the Kubo
    sum at [omega = 10] has real part at most [(1000/999) / 5]. *)
Theorem correlation_omega_divergence :
  Cqq_std (Scalar 0) 2 1 = Scalar (rmulc 2 (Cqq_std_spec 0 2 1)) /\
  Cqq_std (Scalar 0) 2 1 <> Scalar (Cqq_std_spec 0 2 1) /\
  (forall t omega i_max L, Cqq_kubo t omega i_max L = Cqq_kubo t 1 i_max L) /\
  Cqq_kubo (Scalar 0) 10 1 1000 = Some (Scalar (Cqq_kubo_spec 0 1 1 1000)) /\
  1000 / 999 * exp (-1) <= re (Cqq_kubo_spec 0 1 1 1000) /\
  re (Cqq_kubo_spec 0 10 1 1000) <= 1000 / 999 / 5 /\
  Cqq_kubo (Scalar 0) 10 1 1000 <> Some (Scalar (Cqq_kubo_spec 0 10 1 1000)).
Proof.
  assert (Hstd : Cqq_std (Scalar 0) 2 1 = Scalar (rmulc 2 (Cqq_std_spec 0 2 1))).
  { rewrite CorrFacts.Cqq_std_scaled by (lra || lia). reflexivity. }
  assert (Hk : Cqq_kubo (Scalar 0) 10 1 1000 = Some (Scalar (Cqq_kubo_spec 0 1 1 1000))).
  { rewrite CorrFacts.Cqq_kubo_spec_eq by first [lia | apply Nat.leb_le; reflexivity].
    reflexivity. }
  pose proof CorrOmega.kubo_spec_zero_1 as H1.
  pose proof CorrOmega.kubo_spec_zero_10 as H10.
  pose proof CorrOmega.exp_neg_1_ge as Hx.
  split; [exact Hstd|]. split.
  { rewrite Hstd. intros H.
    apply (f_equal (fun a => match a with Scalar z => re z | Axis _ => 0 end)) in H.
    cbn beta iota in H. cbn [rmulc re] in H.
    pose proof (CorrFacts.std_spec_at_zero_pos 2 1) as Hp.
    assert (0 < re (Cqq_std_spec 0 2 1)) by (apply Hp; (lra || lia)).
    lra. }
  split; [intros; reflexivity|].
  split; [exact Hk|]. split; [exact H1|]. split; [exact H10|].
  rewrite Hk. intros H.
  apply (f_equal (fun a => match a with Some (Scalar z) => re z | _ => 0 end)) in H.
  cbn beta iota in H. lra.
Qed.

(** C9: [boltzweight] never reads its [p] and [q] arguments: two calls with
    the same globals and [beta] agree whatever [p] and [q] are, and when
    the global arrays [ps] and [qs] have the same length the result is
    [exp(-beta (ps^2/2 + qs^2/2))] elementwise. *)
Theorem boltzweight_ignores_arguments (g : globals) {P Q P' Q' : Type}
  (p : P) (q : Q) (p' : P') (q' : Q') (b : R) :
  boltzweight g p q b = boltzweight g p' q' b /\
  (length (ps g) = length (qs g) ->
     boltzweight g p q b
     = Some (map (fun '(x, y) => exp (- b * (x ^ 2 / 2 + y ^ 2 / 2)))
                 (combine (ps g) (qs g)))).
Proof.
  split; [reflexivity|].
  intros H. unfold boltzweight, broadcast2. rewrite H, Nat.eqb_refl.
  cbn [option_map]. rewrite map_map. f_equal.
  apply map_ext. intros [x y]. reflexivity.
Qed.

Lemma boltzweight_ignores_arguments_witness :
  length (ps (mkGlobals [1; 2] [0; 1])) = length (qs (mkGlobals [1; 2] [0; 1])) /\
  boltzweight (mkGlobals [1; 2] [0; 1]) 0 0 1
  = Some (map (fun '(x, y) => exp (- 1 * (x ^ 2 / 2 + y ^ 2 / 2)))
              (combine [1; 2] [0; 1])).
Proof.
  split; [reflexivity|].
  apply (boltzweight_ignores_arguments (mkGlobals [1; 2] [0; 1]) 0 0 tt tt 1).
  reflexivity.
Defined.

(** * Further properties *)

(** ** Time symmetries of the correlation functions

    The accumulated arrays are sums of terms [phase * weight]; a property
    of every term kept by [+] and by real factors is a property of the
    accumulator. *)
Module CorrSymmetry.
Import Corr.
Local Open Scope R_scope.

Lemma fold_left_inv {X Y : Type} (P : X -> Prop) (g : X -> Y -> X) :
  forall (l : list Y) (x : X),
  P x -> (forall a y, P a -> P (g a y)) -> P (fold_left g l x).
Proof.
  induction l as [|y l IH]; intros x Hx Hg; cbn; [exact Hx|].
  apply IH; [apply Hg, Hx | exact Hg].
Qed.

Lemma ofold_inv {X Y : Type} (P : X -> Prop) (g : X -> Y -> option X)
  (Hg : forall a y a', P a -> g a y = Some a' -> P a') :
  forall (l : list Y) (x r : X), P x -> ofold g l x = Some r -> P r.
Proof.
  unfold ofold. induction l as [|y l IH]; intros x r Hx H; cbn in H.
  - injection H as <-. exact Hx.
  - destruct (g x y) as [x'|] eqn:E.
    + apply (IH x'); [apply (Hg x y x' Hx E) | exact H].
    + rewrite CorrFacts.ofold_none in H. discriminate.
Qed.

Section Closed.
Variable P : tarray -> Prop.
Hypothesis P_zero : P tzero.
Hypothesis P_add : forall a b : tarray, P a -> P b -> P (fun t => cadd (a t) (b t)).
Hypothesis P_mulr : forall (a : tarray) (c : R), P a -> P (fun t => cmulr (a t) c).

Lemma std_loop_closed (omega : R) (i_max : Z)
  (Hterm : forall i j, P (std_term omega i j)) :
  P (fst (std_loop omega i_max)).
Proof.
  unfold std_loop.
  apply (fold_left_inv (fun acc => P (fst acc))); [exact P_zero|].
  intros [rc rz] i Hrc. cbn [std_body fst] in *.
  apply (P_add rc (fun t => cmulr (std_sumj omega i t) (exp (- beta * Ei i omega false))));
    [exact Hrc|].
  apply (P_mulr (std_sumj omega i)). unfold std_sumj.
  apply fold_left_inv; [exact P_zero|].
  intros a j Ha. apply (P_add a (std_term omega i j)); [exact Ha | apply Hterm].
Qed.

Lemma kubo_loop_closed (lgrid : list R) (i_max : Z) (rc : tarray) (rz : R)
  (Hterm : forall lt i j, P (kubo_term lt i j)) :
  kubo_loop lgrid i_max = Some (rc, rz) -> P rc.
Proof.
  unfold kubo_loop. intros H.
  apply (ofold_inv (fun acc => P (fst acc)) (kubo_body lgrid)) in H; [exact H| |exact P_zero].
  intros [rcqq rz0] i [rc' rz'] Ha Hb. cbn [fst] in *. unfold kubo_body in Hb.
  destruct (kubo_inner lgrid i rcqq) as [rcqq'|] eqn:Ei'; [|discriminate].
  injection Hb as <- _.
  unfold kubo_inner in Ei'.
  eapply (ofold_inv P); [| exact Ha | exact Ei'].
  intros a j a' Hpa Hj. cbv beta in Hj. destruct (lterm lgrid i j) as [lt|]; [|discriminate].
  injection Hj as <-. apply (P_add a (kubo_term lt i j)); [exact Hpa | apply Hterm].
Qed.

End Closed.

Lemma cos_periodZ (x : R) (k : Z) : cos (x + 2 * IZR k * PI) = cos x.
Proof.
  destruct (Z_le_gt_dec 0 k) as [Hk|Hk].
  - rewrite <- (Z2Nat.id k Hk), <- INR_IZR_INZ. apply cos_period.
  - set (n := Z.to_nat (- k)).
    assert (Hn : IZR k = - INR n)
      by (unfold n; rewrite INR_IZR_INZ, Z2Nat.id by lia; rewrite opp_IZR; ring).
    rewrite Hn. rewrite <- (cos_period (x + 2 * - INR n * PI) n). f_equal. ring.
Qed.

Lemma sin_periodZ (x : R) (k : Z) : sin (x + 2 * IZR k * PI) = sin x.
Proof.
  destruct (Z_le_gt_dec 0 k) as [Hk|Hk].
  - rewrite <- (Z2Nat.id k Hk), <- INR_IZR_INZ. apply sin_period.
  - set (n := Z.to_nat (- k)).
    assert (Hn : IZR k = - INR n)
      by (unfold n; rewrite INR_IZR_INZ, Z2Nat.id by lia; rewrite opp_IZR; ring).
    rewrite Hn. rewrite <- (sin_period (x + 2 * - INR n * PI) n). f_equal. ring.
Qed.

Lemma phase_shift (Ea Eb t T : R) (k : Z) :
  (Ea - Eb) * T / hbar = 2 * IZR k * PI -> phase Ea Eb (t + T) = phase Ea Eb t.
Proof.
  intros H. unfold phase, cexp. cbn [re im].
  replace (- (Ea - Eb) * (t + T) / hbar) with (- (Ea - Eb) * t / hbar + 2 * IZR (- k) * PI).
  - rewrite cos_periodZ, sin_periodZ. reflexivity.
  - rewrite opp_IZR. unfold hbar in *. unfold Rdiv in *. rewrite Rinv_1 in *. lra.
Qed.

Lemma phase_neg (Ea Eb t : R) :
  phase Ea Eb (- t) = mkC (re (phase Ea Eb t)) (- im (phase Ea Eb t)).
Proof.
  unfold phase, cexp. cbn [re im].
  replace (- (Ea - Eb) * - t / hbar) with (- (- (Ea - Eb) * t / hbar))
    by (unfold Rdiv; ring).
  rewrite cos_neg, sin_neg. f_equal. ring.
Qed.

(** [T]-periodic arrays, and arrays with [a(-t)] the conjugate of [a(t)]. *)
Lemma periodic_closed (T : R) :
  (forall t, tzero (t + T) = tzero t) /\
  (forall a b : tarray, (forall t, a (t + T) = a t) -> (forall t, b (t + T) = b t) ->
     forall t, cadd (a (t + T)) (b (t + T)) = cadd (a t) (b t)) /\
  (forall (a : tarray) c, (forall t, a (t + T) = a t) ->
     forall t, cmulr (a (t + T)) c = cmulr (a t) c).
Proof.
  split; [reflexivity|]. split.
  - intros a b Ha Hb t. rewrite Ha, Hb. reflexivity.
  - intros a c Ha t. rewrite Ha. reflexivity.
Qed.

Lemma conj_closed :
  (forall t, tzero (- t) = mkC (re (tzero t)) (- im (tzero t))) /\
  (forall a b : tarray,
     (forall t, a (- t) = mkC (re (a t)) (- im (a t))) ->
     (forall t, b (- t) = mkC (re (b t)) (- im (b t))) ->
     forall t, cadd (a (- t)) (b (- t))
               = mkC (re (cadd (a t) (b t))) (- im (cadd (a t) (b t)))) /\
  (forall (a : tarray) c,
     (forall t, a (- t) = mkC (re (a t)) (- im (a t))) ->
     forall t, cmulr (a (- t)) c = mkC (re (cmulr (a t) c)) (- im (cmulr (a t) c))).
Proof.
  split; [intros t; unfold tzero, C0; cbn; f_equal; ring|]. split.
  - intros a b Ha Hb t. rewrite Ha, Hb. unfold cadd. cbn. f_equal. ring.
  - intros a c Ha t. rewrite Ha. unfold cmulr. cbn. f_equal. ring.
Qed.

Lemma std_term_periodic (omega : R) (i j : Z) (Hw : omega <> 0) (t : R) :
  std_term omega i j (t + 2 * PI / omega) = std_term omega i j t.
Proof.
  unfold std_term. rewrite (phase_shift _ _ t _ (i - j)); [reflexivity|].
  unfold Ei, hbar. rewrite minus_IZR. field. exact Hw.
Qed.

Lemma kubo_term_periodic (lt : R) (i j : Z) (t : R) :
  kubo_term lt i j (t + 2 * PI) = kubo_term lt i j t.
Proof.
  unfold kubo_term. rewrite (phase_shift _ _ t _ (i - j)); [reflexivity|].
  unfold Ei, hbar. rewrite minus_IZR. field.
Qed.

Lemma std_term_conj (omega : R) (i j : Z) (t : R) :
  std_term omega i j (- t)
  = mkC (re (std_term omega i j t)) (- im (std_term omega i j t)).
Proof. unfold std_term. rewrite phase_neg. unfold cmulr. cbn. f_equal. ring. Qed.

Lemma kubo_term_conj (lt : R) (i j : Z) (t : R) :
  kubo_term lt i j (- t) = mkC (re (kubo_term lt i j t)) (- im (kubo_term lt i j t)).
Proof. unfold kubo_term. rewrite phase_neg. unfold cmulr, rmulc. cbn. f_equal. ring. Qed.

Lemma std_loop_periodic (omega : R) (i_max : Z) (Hw : omega <> 0) (t : R) :
  fst (std_loop omega i_max) (t + 2 * PI / omega) = fst (std_loop omega i_max) t.
Proof.
  destruct (periodic_closed (2 * PI / omega)) as (H0 & Ha & Hm).
  revert t. apply (std_loop_closed (fun a => forall t, a (t + 2 * PI / omega) = a t));
    [exact H0 | exact Ha | exact Hm |].
  intros i j t. apply std_term_periodic, Hw.
Qed.

Lemma std_loop_conj (omega : R) (i_max : Z) (t : R) :
  fst (std_loop omega i_max) (- t)
  = mkC (re (fst (std_loop omega i_max) t)) (- im (fst (std_loop omega i_max) t)).
Proof.
  destruct conj_closed as (H0 & Ha & Hm).
  revert t. apply (std_loop_closed (fun a => forall t, a (- t) = mkC (re (a t)) (- im (a t))));
    [exact H0 | exact Ha | exact Hm |].
  intros i j t. apply std_term_conj.
Qed.

Lemma kubo_loop_periodic (lgrid : list R) (i_max : Z) (rc : tarray) (rz : R) :
  kubo_loop lgrid i_max = Some (rc, rz) -> forall t, rc (t + 2 * PI) = rc t.
Proof.
  destruct (periodic_closed (2 * PI)) as (H0 & Ha & _).
  apply (kubo_loop_closed (fun a => forall t, a (t + 2 * PI) = a t));
    [exact H0 | exact Ha |].
  intros lt i j t. apply kubo_term_periodic.
Qed.

Lemma kubo_loop_conj (lgrid : list R) (i_max : Z) (rc : tarray) (rz : R) :
  kubo_loop lgrid i_max = Some (rc, rz) ->
  forall t, rc (- t) = mkC (re (rc t)) (- im (rc t)).
Proof.
  destruct conj_closed as (H0 & Ha & Hm).
  apply (kubo_loop_closed (fun a => forall t, a (- t) = mkC (re (a t)) (- im (a t))));
    [exact H0 | exact Ha |].
  intros lt i j t. apply kubo_term_conj.
Qed.

Lemma zeros_periodic (T : R) (t : ndarray R) :
  amap (fun x => of_real (x * 0)) (amap (fun x => x + T) t)
  = amap (fun x => of_real (x * 0)) t.
Proof.
  rewrite CorrFacts.amap_amap. apply CorrFacts.amap_ext. intros x.
  unfold of_real. f_equal. ring.
Qed.

Lemma zeros_conj (t : ndarray R) :
  amap (fun x => of_real (x * 0)) (amap Ropp t)
  = amap (fun z => mkC (re z) (- im z)) (amap (fun x => of_real (x * 0)) t).
Proof.
  rewrite !CorrFacts.amap_amap. apply CorrFacts.amap_ext. intros x.
  unfold of_real. cbn. f_equal; ring.
Qed.

Lemma range_nonpos (n : Z) : (n <= 0)%Z -> range n = [].
Proof. intros H. unfold range. replace (Z.to_nat n) with 0%nat by lia. reflexivity. Qed.

End CorrSymmetry.

(** X1: for a non-zero [omega], [Cqq_std] takes the same values at [t] and at
    [t + 2 pi / omega], for every [i_max]. *)
Theorem Cqq_std_periodic (t : ndarray R) (omega : R) (i_max : Z) (Hw : omega <> 0) :
  Cqq_std (amap (fun x => x + 2 * PI / omega) t) omega i_max = Cqq_std t omega i_max.
Proof.
  unfold Cqq_std.
  pose proof (CorrSymmetry.std_loop_periodic omega i_max Hw) as Hp.
  destruct (std_loop omega i_max) as [rc rz]. cbn [fst] in Hp.
  destruct (Z.ltb 0 i_max); [|apply CorrSymmetry.zeros_periodic].
  rewrite CorrFacts.amap_amap. apply CorrFacts.amap_ext. intros x. rewrite Hp. reflexivity.
Qed.

Lemma Cqq_std_periodic_witness :
  1 <> 0 /\
  Cqq_std (amap (fun x => x + 2 * PI / 1) (Scalar 0)) 1 1 = Cqq_std (Scalar 0) 1 1.
Proof. split; [apply R1_neq_R0 | apply Cqq_std_periodic; apply R1_neq_R0]. Defined.

(** X2: [Cqq_std] at [-t] is the complex conjugate of [Cqq_std] at [t], for
    every [omega] and [i_max]. *)
Theorem Cqq_std_time_reversal (t : ndarray R) (omega : R) (i_max : Z) :
  Cqq_std (amap Ropp t) omega i_max
  = amap (fun z => mkC (re z) (- im z)) (Cqq_std t omega i_max).
Proof.
  unfold Cqq_std.
  pose proof (CorrSymmetry.std_loop_conj omega i_max) as Hc.
  destruct (std_loop omega i_max) as [rc rz]. cbn [fst] in Hc.
  destruct (Z.ltb 0 i_max); [|apply CorrSymmetry.zeros_conj].
  rewrite !CorrFacts.amap_amap. apply CorrFacts.amap_ext. intros x. rewrite Hc.
  unfold cdivr. cbn. f_equal. unfold Rdiv. ring.
Qed.

(** X3: whatever [omega] and the grid size, [Cqq_kubo] raises at [t + 2 pi]
    exactly when it raises at [t], and otherwise takes the same values: its
    energies and matrix elements are those of [omega = 1]. *)
Theorem Cqq_kubo_periodic (t : ndarray R) (omega : R) (i_max : Z) (L : nat) :
  Cqq_kubo (amap (fun x => x + 2 * PI) t) omega i_max L = Cqq_kubo t omega i_max L.
Proof.
  unfold Cqq_kubo.
  destruct (kubo_loop (linspace 0 beta L) i_max) as [[rc rz]|] eqn:E; [|reflexivity].
  pose proof (CorrSymmetry.kubo_loop_periodic _ _ _ _ E) as Hp.
  f_equal. destruct (Z.ltb 0 i_max); [|apply CorrSymmetry.zeros_periodic].
  rewrite CorrFacts.amap_amap. apply CorrFacts.amap_ext. intros x. rewrite Hp. reflexivity.
Qed.

(** X4: [Cqq_kubo] at [-t] raises exactly when it raises at [t], and
    otherwise is the complex conjugate of its value at [t]. *)
Theorem Cqq_kubo_time_reversal (t : ndarray R) (omega : R) (i_max : Z) (L : nat) :
  Cqq_kubo (amap Ropp t) omega i_max L
  = option_map (amap (fun z => mkC (re z) (- im z))) (Cqq_kubo t omega i_max L).
Proof.
  unfold Cqq_kubo.
  destruct (kubo_loop (linspace 0 beta L) i_max) as [[rc rz]|] eqn:E; [|reflexivity].
  pose proof (CorrSymmetry.kubo_loop_conj _ _ _ _ E) as Hc.
  cbn [option_map]. f_equal. destruct (Z.ltb 0 i_max); [|apply CorrSymmetry.zeros_conj].
  rewrite !CorrFacts.amap_amap. apply CorrFacts.amap_ext. intros x. rewrite Hc.
  unfold cdivr. cbn. f_equal. unfold Rdiv. ring.
Qed.

(** X5: [Cqq_kubo] raises [IndexError] exactly when the imaginary-time grid
    has fewer than two points and [i_max >= 0]; with [i_max < 0] the loops
    are empty and it returns, whatever the grid. *)
Theorem Cqq_kubo_raises_iff (t : ndarray R) (omega : R) (i_max : Z) (L : nat) :
  Cqq_kubo t omega i_max L = None <-> (L <= 1)%nat /\ (0 <= i_max)%Z.
Proof.
  unfold Cqq_kubo. split.
  - intros H. destruct (le_lt_dec L 1) as [HL|HL].
    + split; [exact HL|]. destruct (Z_le_gt_dec 0 i_max) as [Hi|Hi]; [exact Hi|].
      unfold kubo_loop in H. rewrite CorrSymmetry.range_nonpos in H by lia.
      discriminate H.
    + destruct (CorrFacts.kubo_loop_some L ltac:(lia) i_max) as [[rc rz] E].
      rewrite E in H. discriminate H.
  - intros [HL Hi]. rewrite CorrFacts.kubo_loop_short_grid by assumption. reflexivity.
Qed.

(** X6: on the grid [np.linspace(0, beta, L)] with [L >= 2], the weight
    [lterm(i, j)] is defined and positive for every pair, and on the
    diagonal it is [L / (L - 1)], not [1]. *)
Theorem lterm_diagonal (L : nat) (HL : (2 <= L)%nat) (i : Z) :
  lterm (linspace 0 beta L) i i = Some (INR L / INR (L - 1)) /\
  (forall j, exists w, lterm (linspace 0 beta L) i j = Some w /\ 0 < w).
Proof.
  assert (HL1 : INR (L - 1) <> 0) by (apply not_0_INR; lia).
  assert (HL1p : 0 < INR (L - 1)) by (apply lt_0_INR; lia).
  split.
  - rewrite CorrFacts.lterm_linspace by exact HL. f_equal. unfold lterm_spec. cbn zeta.
    assert (Hs : rsum (fun k => exp (- (INR k * (beta / INR (L - 1)))
                        * (E_spec 1 i - E_spec 1 i))) (seq 0 L) = INR L).
    { rewrite (CorrFacts.rsum_ext _ (fun _ => 1)).
      - apply Rle_antisym.
        + rewrite <- (length_seq L 0) at 2. rewrite <- (Rmult_1_r (INR (length _))).
          apply CorrFacts.rsum_le_const. intros; lra.
        + rewrite <- (length_seq L 0) at 1. rewrite <- (Rmult_1_r (INR (length _))).
          apply CorrFacts.rsum_ge_const. intros; lra.
      - intros k _. replace (- (INR k * (beta / INR (L - 1))) * (E_spec 1 i - E_spec 1 i))
          with 0 by ring. apply exp_0. }
    rewrite Hs. unfold beta. field. exact HL1.
  - intros j. rewrite CorrFacts.lterm_linspace by exact HL. eexists. split; [reflexivity|].
    unfold lterm_spec. cbn zeta. apply Rmult_lt_0_compat.
    + unfold beta, Rdiv. rewrite Rinv_1, Rmult_1_r, Rmult_1_l. apply Rinv_0_lt_compat, HL1p.
    + destruct L as [|L']; [lia|]. cbn [seq]. rewrite CorrFacts.rsum_cons.
      apply Rplus_lt_le_0_compat; [apply exp_pos|].
      apply CorrFacts.rsum_nonneg. intros k _. left. apply exp_pos.
Qed.

Lemma lterm_diagonal_witness :
  (2 <= 3)%nat /\
  (lterm (linspace 0 beta 3) 0 0 = Some (INR 3 / INR (3 - 1)) /\
   (forall j, exists w, lterm (linspace 0 beta 3) 0 j = Some w /\ 0 < w)).
Proof. split; [lia | apply lterm_diagonal; lia]. Defined.

(** X8: for [omega > 0] the matrix element [qij(i, j, omega)] is
    [qij(i, j, 1) / sqrt(omega)]. *)
Theorem qij_omega_scaling (i j : Z) (omega : R) (Hw : 0 < omega) :
  qij i j omega = qij i j 1 / sqrt omega.
Proof.
  pose proof (sqrt_lt_R0 omega Hw) as Hs.
  unfold qij.
  replace (hbar / (2 * m * omega)) with ((hbar / (2 * m * 1)) / omega)
    by (unfold hbar, m; field; lra).
  rewrite sqrt_div_alt by exact Hw.
  destruct (Z.eqb i (j - 1)); [field; lra|].
  destruct (Z.eqb i (j + 1)); [field; lra|].
  unfold Rdiv. ring.
Qed.

Lemma qij_omega_scaling_witness :
  0 < 4 /\ qij 0 1 4 = qij 0 1 1 / sqrt 4.
Proof. split; [lra | apply qij_omega_scaling; lra]. Defined.

(** ** Helpers for the trajectory loop, the ensemble cells and the signal *)
Module LoopFacts.
Import Verlet VerletFacts.
Local Open Scope R_scope.

Lemma combine_fst_snd {X Y : Type} (l : list (X * Y)) :
  combine (map fst l) (map snd l) = l.
Proof. induction l as [|[x y] l IH]; cbn; [reflexivity | now rewrite IH]. Qed.

Lemma states_add {A : Type} `{Arith A} (force : A -> A) (dt : A) (n : nat) :
  forall m pq,
  states force dt (n + m) pq = states force dt n pq ++ states force dt m (iter force dt n pq).
Proof.
  induction n as [|n IH]; intros m pq; [reflexivity|].
  cbn [Nat.add states iter app]. f_equal. apply IH.
Qed.

Lemma in_states (force : R -> R) (dt : R) (n : nat) (pq s : R * R) :
  In s (states force dt n pq) -> exists k, (k < n)%nat /\ s = iter force dt (S k) pq.
Proof.
  intros Hin. apply In_nth_error in Hin as [k Hk].
  assert (Hkn : (k < n)%nat).
  { rewrite <- (states_length force dt n pq). apply nth_error_Some. congruence. }
  exists k. split; [exact Hkn|]. rewrite nth_states in Hk by exact Hkn. congruence.
Qed.

Lemma Int_part_small (x : R) : 0 <= x < 1 -> Int_part x = 0%Z.
Proof.
  intros Hx. unfold Int_part. rewrite <- (tech_up x 1); [reflexivity| |]; cbn; lra.
Qed.

Lemma steps_of_small (tmax dt : R) : tmax / dt < 1 -> steps_of tmax dt = 0%nat.
Proof.
  intros H. unfold steps_of, py_int.
  destruct (Rle_dec 0 (tmax / dt)) as [H0|H0].
  - rewrite Int_part_small by lra. reflexivity.
  - pose proof (StepCount.Int_part_nonneg (- (tmax / dt)) ltac:(lra)). lia.
Qed.

End LoopFacts.

Module EnsembleFacts.
Import Verlet VerletFacts Ensemble.
Local Open Scope R_scope.

Lemma dict_get_nil {V : Type} (j : nat) : @dict_get V [] j = None.
Proof. reflexivity. Qed.

Lemma dict_get_cons {V : Type} (a : nat) (x : V) (d : list (nat * V)) (j : nat) :
  dict_get ((a, x) :: d) j = if Nat.eqb a j then Some x else dict_get d j.
Proof. unfold dict_get. cbn [find fst]. destruct (Nat.eqb a j); reflexivity. Qed.

Lemma dict_get_absent {V : Type} (d : list (nat * V)) (k : nat) :
  existsb (fun kv => Nat.eqb (fst kv) k) d = false -> dict_get d k = None.
Proof.
  induction d as [|[a x] d IH]; intros H; [reflexivity|].
  cbn [existsb fst] in H. apply orb_false_iff in H as [H1 H2].
  rewrite dict_get_cons, H1. apply IH, H2.
Qed.

Lemma dict_get_map_other {V : Type} (d : list (nat * V)) (k : nat) (v : V) (j : nat) :
  j <> k ->
  dict_get (map (fun kv => if Nat.eqb (fst kv) k then (k, v) else kv) d) j = dict_get d j.
Proof.
  intros Hjk. induction d as [|[a x] d IH]; [reflexivity|].
  cbn [map fst]. destruct (Nat.eqb_spec a k) as [->|Hak]; rewrite !dict_get_cons, IH;
    [|reflexivity].
  destruct (Nat.eqb_spec k j); [congruence | reflexivity].
Qed.

Lemma dict_get_set {V : Type} (d : list (nat * V)) (k : nat) (v : V) (j : nat) :
  dict_get (dict_set d k v) j = if Nat.eqb j k then Some v else dict_get d j.
Proof.
  unfold dict_set. destruct (existsb (fun kv => Nat.eqb (fst kv) k) d) eqn:Ex.
  - induction d as [|[a x] d IH]; [discriminate|].
    cbn [existsb fst] in Ex. cbn [map fst].
    destruct (Nat.eqb_spec a k) as [->|Hak].
    + rewrite !dict_get_cons.
      destruct (Nat.eqb_spec k j) as [->|Hkj]; [rewrite Nat.eqb_refl; reflexivity|].
      destruct (Nat.eqb_spec j k) as [->|Hjk]; [congruence|].
      apply dict_get_map_other, Hjk.
    + cbn [orb] in Ex. rewrite !dict_get_cons, (IH Ex).
      destruct (Nat.eqb_spec j k) as [->|Hjk]; [|reflexivity].
      rewrite (proj2 (Nat.eqb_neq a k) Hak). reflexivity.
  - induction d as [|[a x] d IH].
    + cbn [app]. rewrite dict_get_cons, Nat.eqb_sym. destruct (Nat.eqb j k); reflexivity.
    + cbn [existsb fst] in Ex. apply orb_false_iff in Ex as [H1 H2].
      cbn [app]. rewrite !dict_get_cons, (IH H2).
      destruct (Nat.eqb_spec a j) as [->|Haj]; [|reflexivity].
      rewrite H1. reflexivity.
Qed.

Lemma nth_error_combine {X Y : Type} (a : list X) (b : list Y) (k : nat) :
  nth_error (combine a b) k =
  match nth_error a k, nth_error b k with
  | Some x, Some y => Some (x, y)
  | _, _ => None
  end.
Proof.
  revert b k. induction a as [|x a IH]; intros b k; [destruct k; reflexivity|].
  destruct b as [|y b]; [destruct k, (nth_error (x :: a) _); reflexivity|].
  destruct k; cbn; [reflexivity | apply IH].
Qed.

Lemma traj_fold_get (j : nat) : forall n s (l : list (R * R)) d,
  dict_get (fold_left (fun d '(j, (p0, q0)) =>
                 dict_set d j (run f (1 / 100) (steps_of 100 (1 / 100)) p0 q0))
              (combine (seq s n) l) d) j
  = if andb (Nat.leb s j) (Nat.ltb j (s + n)) then
      match nth_error l (j - s) with
      | Some (p0, q0) => Some (run f (1 / 100) (steps_of 100 (1 / 100)) p0 q0)
      | None => dict_get d j
      end
    else dict_get d j.
Proof.
  induction n as [|n IH]; intros s l d.
  - cbn [seq combine fold_left].
    destruct (Nat.leb_spec s j), (Nat.ltb_spec j (s + 0)); cbn [andb]; try reflexivity; lia.
  - destruct l as [|[p0 q0] l].
    + cbn [seq]. destruct (Nat.leb s j && Nat.ltb j (s + S n));
        [destruct (j - s)%nat|]; reflexivity.
    + cbn [seq combine fold_left]. rewrite IH, dict_get_set.
      destruct (lt_eq_lt_dec j s) as [[Hlt | ->] | Hgt].
      * destruct (Nat.leb_spec (S s) j), (Nat.leb_spec s j); try lia. cbn [andb].
        destruct (Nat.eqb_spec j s); [lia | reflexivity].
      * rewrite Nat.leb_refl, Nat.eqb_refl, Nat.sub_diag.
        destruct (Nat.leb_spec (S s) s); [lia|]. destruct (Nat.ltb_spec s (s + S n)); [|lia].
        reflexivity.
      * destruct (Nat.leb_spec (S s) j), (Nat.leb_spec s j); try lia. cbn [andb].
        destruct (Nat.eqb_spec j s); [lia|].
        replace (S s + n)%nat with (s + S n)%nat by lia.
        replace (j - s)%nat with (S (j - S s)) by lia. cbn [nth_error].
        destruct (Nat.ltb (j) (s + S n)); [|reflexivity].
        destruct (nth_error l (j - S s)) as [[]|]; reflexivity.
Qed.

Lemma traj_ens_get (n : nat) (p0s q0s : list R) (j : nat) :
  dict_get (traj_ens_cell n p0s q0s) j =
  match nth_error p0s j, nth_error q0s j with
  | Some p0, Some q0 =>
      if Nat.ltb j n then Some (run f (1 / 100) (steps_of 100 (1 / 100)) p0 q0) else None
  | _, _ => None
  end.
Proof.
  unfold traj_ens_cell. cbv zeta. rewrite traj_fold_get, nth_error_combine, Nat.sub_0_r.
  cbn [Nat.leb andb Nat.add].
  destruct (nth_error p0s j), (nth_error q0s j), (Nat.ltb j n); reflexivity.
Qed.

Lemma inv_cell_S (fg : pyforce) (n : nat) (dt : R) (steps : nat)
  (te : list (nat * @traj R)) :
  inv_traj_ens_cell fg (S n) dt steps te =
  match inv_traj_ens_cell fg n dt steps te with
  | inl e => inl e
  | inr d =>
      match dict_get te n with
      | None => inl (KeyError n)
      | Some tr =>
          match inv_run fg dt steps tr with
          | inr inv => inr (dict_set d n inv)
          | inl e => inl e
          end
      end
  end.
Proof. unfold inv_traj_ens_cell. rewrite seq_S, fold_left_app. reflexivity. Qed.

Lemma inv_cell_ok (fg : pyforce) (dt : R) (steps : nat) (te : list (nat * @traj R))
  (m : nat) :
  (forall j, (j < m)%nat -> exists tr inv,
       dict_get te j = Some tr /\ inv_run fg dt steps tr = inr inv) ->
  exists d, inv_traj_ens_cell fg m dt steps te = inr d /\
    forall j, dict_get d j =
      if Nat.ltb j m then
        match dict_get te j with
        | Some tr => match inv_run fg dt steps tr with inr inv => Some inv | inl _ => None end
        | None => None
        end
      else None.
Proof.
  induction m as [|m IH]; intros H.
  - exists []. split; [reflexivity|]. intros j. reflexivity.
  - destruct IH as (d & Hd & Hget); [intros j Hj; apply H; lia|].
    destruct (H m ltac:(lia)) as (tr & inv & Htr & Hinv).
    exists (dict_set d m inv). rewrite inv_cell_S, Hd, Htr, Hinv. split; [reflexivity|].
    intros j. rewrite dict_get_set, Hget.
    destruct (Nat.eqb_spec j m) as [->|Hjm].
    + rewrite Htr, Hinv. destruct (Nat.ltb_spec m (S m)); [reflexivity | lia].
    + destruct (Nat.ltb_spec j m), (Nat.ltb_spec j (S m)); try reflexivity; lia.
Qed.

Lemma inv_cell_error (fg : pyforce) (dt : R) (steps : nat) (te : list (nat * @traj R))
  (k : nat) (e : py_error) :
  (forall j, (j < k)%nat -> exists tr inv,
       dict_get te j = Some tr /\ inv_run fg dt steps tr = inr inv) ->
  (dict_get te k = None /\ e = KeyError k) \/
  (exists tr, dict_get te k = Some tr /\ inv_run fg dt steps tr = inl e) ->
  forall n, (k < n)%nat -> inv_traj_ens_cell fg n dt steps te = inl e.
Proof.
  intros Hok Hk n Hn. induction n as [|n IH]; [lia|].
  rewrite inv_cell_S. destruct (Nat.eq_dec n k) as [->|Hnk].
  - destruct (inv_cell_ok fg dt steps te k Hok) as (d & -> & _).
    destruct Hk as [[-> ->] | (tr & -> & ->)]; reflexivity.
  - rewrite IH by lia. reflexivity.
Qed.

Lemma inv_run_fun (g : R -> R) (dt : R) (steps : nat) (tr : @traj R) :
  inv_run (PyFun g) dt steps tr =
  match run_inverse g dt steps tr with Some inv => inr inv | None => inl IndexError end.
Proof.
  unfold inv_run, run_inverse.
  destruct (last_item (plist tr)), (last_item (qlist tr)); reflexivity.
Qed.

Lemma run_inverse_some (dt p0 q0 : R) (N : nat) (HN : (1 <= N)%nat) :
  exists inv, inv_run (PyFun f) dt N (run f dt N p0 q0) = inr inv /\
    rev (qlist inv) = q0 :: removelast (qlist (run f dt N p0 q0)).
Proof.
  destruct N as [|n]; [lia|].
  destruct (inverse_positions f dt n p0 q0) as (inv & H1 & _ & H3).
  exists inv. rewrite inv_run_fun, H1. split; [reflexivity | exact H3].
Qed.

Lemma inv_run_array (a : list R) (g : R -> R) (dt p0 q0 : R) (N : nat) (HN : (1 <= N)%nat) :
  inv_run (PyArray a) dt N (run g dt N p0 q0) = inl TypeError.
Proof.
  destruct N as [|n]; [lia|].
  unfold inv_run. rewrite run_states. cbn [plist qlist].
  rewrite states_snoc, !last_item_map_snoc. reflexivity.
Qed.

End EnsembleFacts.

Module SignalFacts.
Import Corr Signal.
Local Open Scope R_scope.

Lemma add_rows (t : list R) (h g : R -> R) :
  map (fun '(x, y) => x + y) (combine (map h t) (map g t)) = map (fun x => h x + g x) t.
Proof. induction t as [|x t IH]; cbn; [reflexivity | now rewrite IH]. Qed.

Lemma fold_rows (t : list R) : forall (ws : list R) (h : R -> R),
  fold_left (fun acc row => map (fun '(x, y) => x + y) (combine acc row))
    (map (fun w => map (fun x => cos (w * x)) t) ws) (map h t)
  = map (fun x => h x + rsum (fun w => cos (w * x)) ws) t.
Proof.
  induction ws as [|w ws IH]; intros h; cbn [map fold_left].
  - apply map_ext. intros x. rewrite CorrFacts.rsum_nil. ring.
  - rewrite add_rows, IH. apply map_ext. intros x. rewrite CorrFacts.rsum_cons. ring.
Qed.

Lemma repeat_zero (t : list R) : repeat 0 (length t) = map (fun _ => 0) t.
Proof. induction t as [|x t IH]; cbn; [reflexivity | now rewrite IH]. Qed.

Lemma wave_sum (t ws : list R) :
  wave t ws = map (fun x => rsum (fun w => cos (w * x)) ws) t.
Proof.
  unfold wave, sum_axis0, outer. rewrite repeat_zero, map_map.
  replace (map (fun x => map cos (map (fun y => x * y) t)) ws)
    with (map (fun w => map (fun x => cos (w * x)) t) ws)
    by (apply map_ext; intros w; rewrite map_map; reflexivity).
  rewrite fold_rows. apply map_ext. intros x. ring.
Qed.

Lemma rsum_cos_bound (x : R) (ws : list R) :
  Rabs (rsum (fun w => cos (w * x)) ws) <= INR (length ws).
Proof.
  induction ws as [|w ws IH].
  - rewrite CorrFacts.rsum_nil, Rabs_R0. cbn. lra.
  - rewrite CorrFacts.rsum_cons. cbn [length]. rewrite S_INR.
    eapply Rle_trans; [apply Rabs_triang|].
    assert (Rabs (cos (w * x)) <= 1) by (apply Rabs_le; apply COS_bound). lra.
Qed.

Lemma re_fold_cadd (l : list C) : forall z,
  re (fold_left cadd l z) = re z + rsum re l.
Proof.
  induction l as [|a l IH]; intros z; cbn [fold_left].
  - rewrite CorrFacts.rsum_nil. ring.
  - rewrite IH, CorrFacts.rsum_cons. cbn [re cadd]. ring.
Qed.

Lemma ft_entry (dt wi : R) (l : list (R * R)) :
  re (csum_np (map (fun '(x, sx) => cmulr (rmulc dt (cexp (mkC 0 (- wi * x)))) sx) l))
  = dt * rsum (fun '(x, sx) => cos (wi * x) * sx) l.
Proof.
  unfold csum_np. rewrite re_fold_cadd, CorrFacts.rsum_map. cbn [re C0].
  rewrite Rmult_comm, CorrFacts.rsum_scale, Rplus_0_l.
  apply CorrFacts.rsum_ext. intros [x sx] _. cbn [re im cmulr rmulc cexp].
  rewrite exp_0. replace (- wi * x) with (- (wi * x)) by ring. rewrite cos_neg. ring.
Qed.

Lemma ft_cell_sum (t ws w : list R) :
  ft_cell t ws w =
  match t with
  | t0 :: t1 :: _ =>
      Some (map (fun wi => (t1 - t0) * rsum (fun '(x, sx) => cos (wi * x) * sx)
                                         (combine t (signal t ws))) w)
  | _ => None
  end.
Proof.
  destruct t as [|t0 [|t1 rest]]; [reflexivity | reflexivity|].
  unfold ft_cell. cbn [nth_error]. f_equal. apply map_ext. intros wi.
  apply ft_entry.
Qed.

End SignalFacts.

(** X9: with [f(q) = -q], every state the trajectory cell records keeps the
    quadratic form [p^2 + (1 - dt^2/4) q^2] of the initial state exactly
    (exact arithmetic), for every [dt] and number of passes. *)
Theorem harmonic_shadow_energy (dt p0 q0 : R) (N : nat) :
  Forall (fun '(p, q) => p * p + (1 - dt * dt / 4) * (q * q)
                         = p0 * p0 + (1 - dt * dt / 4) * (q0 * q0))
    (combine (plist (run f dt N p0 q0)) (qlist (run f dt N p0 q0))).
Proof.
  rewrite VerletFacts.run_states. cbn [plist qlist].
  rewrite LoopFacts.combine_fst_snd. apply Forall_forall. intros [p q] Hin.
  destruct (LoopFacts.in_states f dt N (p0, q0) (p, q) Hin) as (k & _ & Hk).
  pose proof (Harmonic.iter_keeps_form dt (S k) p0 q0) as Hf.
  rewrite <- Hk in Hf. exact Hf.
Qed.

(** X10: with [f(q) = -q], one pass of the loop is the linear map
    [(p, q) -> ((1 - dt^2/2) p - dt (1 - dt^2/4) q, dt p + (1 - dt^2/2) q)],
    whose determinant is [1]: the update preserves phase-space area. *)
Theorem harmonic_step_linear (dt : R) :
  (forall p q, step f dt (p, q)
     = ((1 - dt ^ 2 / 2) * p + (- dt * (1 - dt ^ 2 / 4)) * q,
        dt * p + (1 - dt ^ 2 / 2) * q)) /\
  (1 - dt ^ 2 / 2) * (1 - dt ^ 2 / 2) - (- dt * (1 - dt ^ 2 / 4)) * dt = 1.
Proof.
  split; [|field]. intros p q. cbn -[Rdiv]. unfold f. cbn. f_equal; field.
Qed.

(** X11: running [n + m] passes gives the lists of [n] passes followed by
    those of [m] passes started from the state after the [n]-th; this holds
    for any force and any number type, floats included. *)
Theorem run_split {A : Type} `{Arith A} (force : A -> A) (dt : A) (n m : nat) (p0 q0 : A) :
  run force dt (n + m) p0 q0 =
  let '(p, q) := iter force dt n (p0, q0) in
  mkTraj (plist (run force dt n p0 q0) ++ plist (run force dt m p q))
         (qlist (run force dt n p0 q0) ++ qlist (run force dt m p q))
         (flist (run force dt n p0 q0) ++ flist (run force dt m p q)).
Proof.
  destruct (iter force dt n (p0, q0)) as [p q] eqn:E.
  rewrite !VerletFacts.run_states. cbn [plist qlist flist].
  rewrite LoopFacts.states_add, E, !map_app. reflexivity.
Qed.

(** X12: when [dt <> 0] and [tmax / dt < 1], [int(tmax / dt)] is [0]: the
    trajectory cell records nothing, and the reversal cell then raises
    [IndexError] at [plist[-1]] ([run_inverse] gives [None]), whatever the
    force. *)
Theorem no_steps_reversal_raises (force : R -> R) (tmax dt p0 q0 : R) (Hdt : dt <> 0)
  (H : tmax / dt < 1) :
  steps_of tmax dt = 0%nat /\
  run force dt (steps_of tmax dt) p0 q0 = mkTraj [] [] [] /\
  run_inverse force dt (steps_of tmax dt) (run force dt (steps_of tmax dt) p0 q0) = None.
Proof.
  rewrite LoopFacts.steps_of_small by exact H. split; [reflexivity | split; reflexivity].
Qed.

Lemma no_steps_reversal_raises_witness :
  1 / 100 <> 0 /\ 1 / 200 / (1 / 100) < 1 /\
  (steps_of (1 / 200) (1 / 100) = 0%nat /\
   run f (1 / 100) (steps_of (1 / 200) (1 / 100)) 0 1 = mkTraj [] [] [] /\
   run_inverse f (1 / 100) (steps_of (1 / 200) (1 / 100))
     (run f (1 / 100) (steps_of (1 / 200) (1 / 100)) 0 1) = None).
Proof.
  assert (Hd : 1 / 100 <> 0) by lra.
  assert (Hr : 1 / 200 / (1 / 100) < 1) by lra.
  split; [exact Hd | split; [exact Hr | apply no_steps_reversal_raises; [exact Hd | exact Hr]]].
Defined.

(** X13: for any force [f] (not only [-q]), in exact arithmetic one pass of
    the loop from the momentum-flipped state after a pass returns to the
    momentum-flipped state before it; so the reversal cell, for any
    [N >= 1] passes, records positions that read backwards give
    [q0, ..., q_{N-1}]. *)
Theorem reversal_any_force (force : R -> R) (dt p0 q0 : R) (N : nat) (HN : (1 <= N)%nat) :
  (forall pq, step force dt (flip (step force dt pq)) = flip pq) /\
  exists inv,
    run_inverse force dt N (run force dt N p0 q0) = Some inv /\
    rev (qlist inv) = q0 :: removelast (qlist (run force dt N p0 q0)).
Proof.
  split; [apply VerletFacts.step_flip|].
  destruct N as [|n]; [lia|].
  destruct (VerletFacts.inverse_positions force dt n p0 q0) as (inv & H1 & _ & H3).
  exists inv. split; assumption.
Qed.

Lemma reversal_any_force_witness :
  (1 <= 3)%nat /\
  ((forall pq, step (fun q => - q * q * q) (1 / 10) (flip (step (fun q => - q * q * q) (1 / 10) pq))
               = flip pq) /\
   exists inv,
     run_inverse (fun q => - q * q * q) (1 / 10) 3 (run (fun q => - q * q * q) (1 / 10) 3 1 0)
       = Some inv /\
     rev (qlist inv) = 0 :: removelast (qlist (run (fun q => - q * q * q) (1 / 10) 3 1 0))).
Proof. split; [lia | apply reversal_any_force; lia]. Defined.

(** X14: the [traj_ens] cell stores trajectory [j] exactly when
    [j < n_trajs] and both [p0s] and [q0s] have an entry [j] ([zip] stops at
    the shortest), and that trajectory is the [10000]-pass run with
    [dt = 0.01] from [(p0s[j], q0s[j])]. *)
Theorem traj_ens_contents (n : nat) (p0s q0s : list R) (j : nat) :
  Ensemble.dict_get (Ensemble.traj_ens_cell n p0s q0s) j =
  match nth_error p0s j, nth_error q0s j with
  | Some p0, Some q0 => if Nat.ltb j n then Some (run f (1 / 100) 10000 p0 q0) else None
  | _, _ => None
  end.
Proof.
  rewrite EnsembleFacts.traj_ens_get, StepCount.steps_of_notebook. reflexivity.
Qed.

(** X15: when the global [f] is still the harmonic force function (the
    reversal cell run before the exercise cell that rebinds [f] to an
    array) and [p0s] and [q0s] have at least [n_trajs] entries, the reversal
    cell (with the [dt = 0.01] and [steps = 10000] left by the [traj_ens]
    cell) runs without error, and for every [j < n_trajs] its reversed
    positions read backwards are [q0s[j]] followed by the forward positions
    without the last one. *)
Theorem inv_traj_ens_reverses (n : nat) (p0s q0s : list R)
  (Hp : (n <= length p0s)%nat) (Hq : (n <= length q0s)%nat) :
  exists d,
    Ensemble.inv_traj_ens_cell (Ensemble.PyFun f) n (1 / 100) 10000 (Ensemble.traj_ens_cell n p0s q0s) = inr d /\
    forall j p0 q0, (j < n)%nat -> nth_error p0s j = Some p0 -> nth_error q0s j = Some q0 ->
      exists inv, Ensemble.dict_get d j = Some inv /\
        rev (qlist inv) = q0 :: removelast (qlist (run f (1 / 100) 10000 p0 q0)).
Proof.
  assert (Hget : forall j, (j < n)%nat -> exists p0 q0,
     nth_error p0s j = Some p0 /\ nth_error q0s j = Some q0 /\
     Ensemble.dict_get (Ensemble.traj_ens_cell n p0s q0s) j
       = Some (run f (1 / 100) 10000 p0 q0)).
  { intros j Hj.
    destruct (nth_error p0s j) as [p0|] eqn:E1;
      [|apply nth_error_None in E1; lia].
    destruct (nth_error q0s j) as [q0|] eqn:E2;
      [|apply nth_error_None in E2; lia].
    exists p0, q0. split; [reflexivity | split; [reflexivity|]].
    rewrite EnsembleFacts.traj_ens_get, StepCount.steps_of_notebook, E1, E2.
    destruct (Nat.ltb_spec j n); [reflexivity | lia]. }
  destruct (EnsembleFacts.inv_cell_ok (Ensemble.PyFun f) (1 / 100) 10000 (Ensemble.traj_ens_cell n p0s q0s) n)
    as (d & Hd & Hdget).
  { intros j Hj. destruct (Hget j Hj) as (p0 & q0 & _ & _ & Htr).
    destruct (EnsembleFacts.run_inverse_some (1 / 100) p0 q0 10000 ltac:(apply Nat.leb_le; reflexivity))
      as (inv & Hinv & _).
    exists (run f (1 / 100) 10000 p0 q0), inv. split; assumption. }
  exists d. split; [exact Hd|].
  intros j p0 q0 Hj Hp0 Hq0.
  destruct (Hget j Hj) as (p0' & q0' & Hp0' & Hq0' & Htr).
  rewrite Hp0 in Hp0'. injection Hp0' as <-. rewrite Hq0 in Hq0'. injection Hq0' as <-.
  destruct (EnsembleFacts.run_inverse_some (1 / 100) p0 q0 10000 ltac:(apply Nat.leb_le; reflexivity))
    as (inv & Hinv & Hrev).
  exists inv. split; [|exact Hrev].
  rewrite Hdget, Htr, Hinv. destruct (Nat.ltb_spec j n); [reflexivity | lia].
Qed.

Lemma inv_traj_ens_reverses_witness :
  (2 <= length [0; 1])%nat /\ (2 <= length [1; 0])%nat /\
  (exists d,
    Ensemble.inv_traj_ens_cell (Ensemble.PyFun f) 2 (1 / 100) 10000 (Ensemble.traj_ens_cell 2 [0; 1] [1; 0]) = inr d /\
    forall j p0 q0, (j < 2)%nat -> nth_error [0; 1] j = Some p0 -> nth_error [1; 0] j = Some q0 ->
      exists inv, Ensemble.dict_get d j = Some inv /\
        rev (qlist inv) = q0 :: removelast (qlist (run f (1 / 100) 10000 p0 q0))).
Proof.
  split; [cbn; lia | split; [cbn; lia | apply inv_traj_ens_reverses; cbn; lia]].
Defined.

(** X16: when the global [f] is still the harmonic force function and
    [p0s] or [q0s] has fewer than [n_trajs] entries, the reversal cell stops
    with [KeyError] at the first missing index, the length of the shorter
    array. *)
Theorem inv_traj_ens_key_error (n : nat) (p0s q0s : list R)
  (H : (Nat.min (length p0s) (length q0s) < n)%nat) :
  Ensemble.inv_traj_ens_cell (Ensemble.PyFun f) n (1 / 100) 10000 (Ensemble.traj_ens_cell n p0s q0s)
  = inl (Ensemble.KeyError (Nat.min (length p0s) (length q0s))).
Proof.
  set (k := Nat.min (length p0s) (length q0s)).
  apply (EnsembleFacts.inv_cell_error (Ensemble.PyFun f) (1 / 100) 10000 _ k); [| |exact H].
  - intros j Hj.
    destruct (nth_error p0s j) as [p0|] eqn:E1;
      [|apply nth_error_None in E1; unfold k in Hj; lia].
    destruct (nth_error q0s j) as [q0|] eqn:E2;
      [|apply nth_error_None in E2; unfold k in Hj; lia].
    destruct (EnsembleFacts.run_inverse_some (1 / 100) p0 q0 10000 ltac:(apply Nat.leb_le; reflexivity))
      as (inv & Hinv & _).
    exists (run f (1 / 100) 10000 p0 q0), inv. split; [|exact Hinv].
    rewrite EnsembleFacts.traj_ens_get, StepCount.steps_of_notebook, E1, E2.
    destruct (Nat.ltb_spec j n); [reflexivity | unfold k in Hj; lia].
  - left. split; [|reflexivity]. rewrite EnsembleFacts.traj_ens_get.
    destruct (Nat.min_spec (length p0s) (length q0s)) as [[_ Hm]|[_ Hm]];
      unfold k; rewrite Hm.
    + rewrite (proj2 (nth_error_None p0s (length p0s)) (le_n _)). reflexivity.
    + rewrite (proj2 (nth_error_None q0s (length q0s)) (le_n _)).
      destruct (nth_error p0s (length q0s)); reflexivity.
Qed.

Lemma inv_traj_ens_key_error_witness :
  (Nat.min (length [0]) (length [1; 0]) < 2)%nat /\
  Ensemble.inv_traj_ens_cell (Ensemble.PyFun f) 2 (1 / 100) 10000 (Ensemble.traj_ens_cell 2 [0] [1; 0])
  = inl (Ensemble.KeyError (Nat.min (length [0]) (length [1; 0]))).
Proof. split; [cbn; lia | apply inv_traj_ens_key_error; cbn; lia]. Defined.

(** X22: once the exercise cell has rebound the global [f] to the array
    [np.asarray(flist)], the reversal cell (with [steps = 10000]) stops with
    [TypeError] at its first trajectory, as soon as [n_trajs >= 1] and
    [p0s], [q0s] are nonempty: the array is called as a function in the
    first step of the loop. *)
Theorem inv_traj_ens_type_error (a : list R) (n : nat) (p0s q0s : list R)
  (Hn : (1 <= n)%nat) (Hp : (1 <= length p0s)%nat) (Hq : (1 <= length q0s)%nat) :
  Ensemble.inv_traj_ens_cell (Ensemble.PyArray a) n (1 / 100) 10000
    (Ensemble.traj_ens_cell n p0s q0s) = inl Ensemble.TypeError.
Proof.
  apply (EnsembleFacts.inv_cell_error (Ensemble.PyArray a) (1 / 100) 10000 _ 0);
    [intros j Hj; lia | | lia].
  right.
  destruct p0s as [|p0 p0s]; [cbn in Hp; lia|].
  destruct q0s as [|q0 q0s]; [cbn in Hq; lia|].
  exists (run f (1 / 100) 10000 p0 q0). split.
  - rewrite EnsembleFacts.traj_ens_get, StepCount.steps_of_notebook. cbn [nth_error].
    destruct (Nat.ltb_spec 0 n); [reflexivity | lia].
  - apply EnsembleFacts.inv_run_array. apply Nat.leb_le. reflexivity.
Qed.

Lemma inv_traj_ens_type_error_witness :
  (1 <= 1)%nat /\ (1 <= length [0])%nat /\ (1 <= length [1])%nat /\
  Ensemble.inv_traj_ens_cell (Ensemble.PyArray [0; 1]) 1 (1 / 100) 10000
    (Ensemble.traj_ens_cell 1 [0] [1]) = inl Ensemble.TypeError.
Proof.
  split; [lia | split; [cbn; lia | split; [cbn; lia |]]].
  apply inv_traj_ens_type_error; cbn; lia.
Defined.

(** X18: with the globals [ps] and [qs] set to the [plist] and [qlist] of a
    trajectory (as the cell after [boltzweight] does), [boltzweight] returns
    [exp(-beta E_k)] for the energy [E_k] of each recorded state, whatever
    the force, its arguments and [beta]; for [beta >= 0] every weight lies
    in [(0, 1]]. *)
Theorem boltzweight_along_run (force : R -> R) (dt p0 q0 b : R) (N : nat)
  {P Q : Type} (p : P) (q : Q) :
  boltzweight (mkGlobals (plist (run force dt N p0 q0)) (qlist (run force dt N p0 q0))) p q b
  = Some (map (fun s => exp (- b * energy (fst s) (snd s))) (states force dt N (p0, q0))) /\
  (0 <= b -> Forall (fun w => 0 < w <= 1)
    (map (fun s => exp (- b * energy (fst s) (snd s))) (states force dt N (p0, q0)))).
Proof.
  split; [|intros Hb].
  - rewrite VerletFacts.run_states. unfold boltzweight, broadcast2. cbn [ps qs plist qlist].
    rewrite !length_map, Nat.eqb_refl, LoopFacts.combine_fst_snd. cbn [option_map].
    rewrite map_map. f_equal. apply map_ext. intros [x y].
    rewrite Harmonic.energy_R. cbn [fst snd]. f_equal. field.
  - apply Forall_forall. intros w Hw. apply in_map_iff in Hw as ([x y] & <- & _).
    cbn [fst snd]. rewrite Harmonic.energy_R. split; [apply exp_pos|].
    rewrite <- exp_0. apply CorrFacts.exp_mono.
    assert (0 <= x * x / 2 + y * y / 2) by nra. nra.
Qed.

Lemma boltzweight_along_run_witness :
  0 <= 1 /\
  (boltzweight (mkGlobals (plist (run f (1 / 100) 2 0 1)) (qlist (run f (1 / 100) 2 0 1))) tt tt 1
   = Some (map (fun s => exp (- 1 * energy (fst s) (snd s))) (states f (1 / 100) 2 (0, 1))) /\
   Forall (fun w => 0 < w <= 1)
     (map (fun s => exp (- 1 * energy (fst s) (snd s))) (states f (1 / 100) 2 (0, 1)))).
Proof.
  destruct (boltzweight_along_run f (1 / 100) 0 1 1 2 tt tt) as [H1 H2].
  split; [lra | split; [exact H1 | apply H2; lra]].
Defined.

(** X19: [fdamp] is an even window: its value at [-t] is its value at [t],
    and each entry lies in [(0, 1]], equal to [1] exactly where [t = 0]. *)
Theorem fdamp_window (t : list R) :
  Signal.fdamp (map Ropp t) = Signal.fdamp t /\
  Forall2 (fun x y => 0 < y <= 1 /\ (y = 1 <-> x = 0)) t (Signal.fdamp t).
Proof.
  pose proof PI_RGT_0 as Hpi.
  split.
  - unfold Signal.fdamp. rewrite map_map. apply map_ext. intros x.
    f_equal. unfold Rdiv. ring.
  - unfold Signal.fdamp. induction t as [|x t IH]; constructor; [|exact IH].
    set (a := x / 40 / PI).
    assert (Ha : x = a * 40 * PI) by (unfold a; field; lra).
    split; [split; [apply exp_pos|]|split].
    + rewrite <- exp_0. apply CorrFacts.exp_mono. nra.
    + intros H1. rewrite <- exp_0 in H1. apply exp_inv in H1.
      assert (a = 0) by nra. rewrite Ha. subst a. nra.
    + intros Hx. unfold a. rewrite Hx.
      replace (- (0 / 40 / PI) ^ 2) with 0 by (field; lra). apply exp_0.
Qed.

(** X20: [wave(t, ws)] is, at each time [x], [sum_w cos(w x)] over the
    frequencies; each entry is bounded by the number of frequencies in
    absolute value, and the wave is even in time. *)
Theorem wave_cosine_sum (t ws : list R) :
  Signal.wave t ws = map (fun x => rsum (fun w => cos (w * x)) ws) t /\
  Forall (fun y => Rabs y <= INR (length ws)) (Signal.wave t ws) /\
  Signal.wave (map Ropp t) ws = Signal.wave t ws.
Proof.
  rewrite !SignalFacts.wave_sum. split; [reflexivity | split].
  - apply Forall_forall. intros y Hy. apply in_map_iff in Hy as (x & <- & _).
    apply SignalFacts.rsum_cos_bound.
  - rewrite map_map. apply map_ext. intros x. apply CorrFacts.rsum_ext. intros w _.
    replace (w * - x) with (- (w * x)) by ring. apply cos_neg.
Qed.

(** X21: the transform cell raises [IndexError] when [t] has fewer than two
    points; otherwise entry [i] is [(t1 - t0) sum_k cos(w_i t_k) signal_k]:
    the real part keeps only the cosine, so the result is even in the
    frequency. *)
Theorem ft_cell_cosine (t ws w : list R) :
  Signal.ft_cell t ws w =
  match t with
  | t0 :: t1 :: _ =>
      Some (map (fun wi => (t1 - t0) * rsum (fun '(x, sx) => cos (wi * x) * sx)
                                         (combine t (Signal.signal t ws))) w)
  | _ => None
  end /\
  Signal.ft_cell t ws (map Ropp w) = Signal.ft_cell t ws w.
Proof.
  rewrite !SignalFacts.ft_cell_sum. split; [reflexivity|].
  destruct t as [|t0 [|t1 rest]]; [reflexivity | reflexivity|].
  f_equal. rewrite map_map. apply map_ext. intros wi. f_equal.
  apply CorrFacts.rsum_ext. intros [x sx] _.
  replace (- wi * x) with (- (wi * x)) by ring. rewrite cos_neg. reflexivity.
Qed.
